(** * Startup tracker: the scraping and rate-limiting pipeline

    A shallow embedding of [src/lib/utils/rate-limiter.ts] (class
    [RateLimiter]), [src/lib/scraper.ts] ([fetchWithRetry],
    [validateCompany], [scrapeA16z], [scrapeYCombinator],
    [scrapeStartups]) and [src/app/api/scrape/route.ts] ([GET]).

    Asynchronous code is written in direct style: an [await] that can
    reject yields a [Completion], a [try]/[catch] is a [match] on it.
    The network and the clock are an explicit environment. *)

From Stdlib Require Import Ascii String QArith Qround Lqa.
From stdpp Require Import base strings gmap list.

Local Open Scope string_scope.

(** ** JavaScript values used by the sources *)

Module Js.

(** An abrupt or normal completion of an awaited call. *)
Inductive Completion (E A : Type) : Type :=
| Normal (a : A)
| Throw (e : E).
Arguments Normal {E A} a.
Arguments Throw {E A} e.

(** What the sources inspect of a thrown value: [axios.isAxiosError(error)],
    [error.response?.status], [error instanceof Error] and
    [error.message]. *)
Record Error : Type := mkError {
  isAxiosError : bool;
  status : option nat;
  instanceofError : bool;
  message : string
}.

(** *** Strings

    A string is held as the bytes of its UTF-8 form, a lone surrogate
    as the three bytes of its code point.  Equality, emptiness,
    concatenation and the search for an ASCII text read the same on these
    bytes as on the UTF-16 units of the string.  [s.length], [s.trim()] and
    the replacement of single units are defined by the units the bytes
    stand for.  [s.toLowerCase()] follows the case tables of the platform,
    which the sources do not hold: it is a component of the environment
    of a run (see [Scraper.Env]). *)

(** The number of UTF-16 units a byte opens: none for a continuation
    byte, two for the first byte of a four-byte form, one otherwise. *)
Definition units (c : ascii) : nat :=
  let n := Ascii.nat_of_ascii c in
  if (n <? 128)%nat then 1%nat
  else if (n <? 192)%nat then 0%nat
  else if (n <? 240)%nat then 1%nat
  else 2%nat.

(** [s.length] *)
Fixpoint stringLength (s : string) : nat :=
  match s with
  | EmptyString => 0%nat
  | String c t => (units c + stringLength t)%nat
  end.

(** The two letter cases of the ASCII range: what the flag [i] of a
    regular expression identifies for a pattern of ASCII characters, and
    what [toLowerCase] does to an ASCII string.  The worked runs below,
    whose names are ASCII, take [asciiLowerCase] for the [toLowerCase] of
    the platform. *)
Definition lowerAscii (c : ascii) : ascii :=
  let n := Ascii.nat_of_ascii c in
  if (65 <=? n)%nat && (n <=? 90)%nat then Ascii.ascii_of_nat (n + 32) else c.

Fixpoint asciiLowerCase (s : string) : string :=
  match s with
  | EmptyString => EmptyString
  | String c t => String (lowerAscii c) (asciiLowerCase t)
  end.

Definition byteIs (k : nat) (c : ascii) : bool :=
  (Ascii.nat_of_ascii c =? k)%nat.

Definition byteIn (lo hi : nat) (c : ascii) : bool :=
  let n := Ascii.nat_of_ascii c in (lo <=? n)%nat && (n <=? hi)%nat.

(** What [String.prototype.trim] removes: the white space and the line
    terminators of ECMAScript, by the bytes of their UTF-8 form.
    One byte: TAB, LF, VT, FF, CR, SP. *)
Definition space1 (a : ascii) : bool :=
  byteIn 9 13 a || byteIs 32 a.

(** Two bytes: U+00A0. *)
Definition space2 (a b : ascii) : bool :=
  byteIs 194 a && byteIs 160 b.

(** Three bytes: U+1680; U+2000 to U+200A, U+2028, U+2029, U+202F;
    U+205F; U+3000; U+FEFF. *)
Definition space3 (a b c : ascii) : bool :=
  (byteIs 225 a && byteIs 154 b && byteIs 128 c)
  || (byteIs 226 a && byteIs 128 b &&
      (byteIn 128 138 c || byteIn 168 169 c || byteIs 175 c))
  || (byteIs 226 a && byteIs 129 b && byteIs 159 c)
  || (byteIs 227 a && byteIs 128 b && byteIs 128 c)
  || (byteIs 239 a && byteIs 187 b && byteIs 191 c).

Section Dropping.

Variable w1 : ascii -> bool.
Variable w2 : ascii -> ascii -> bool.
Variable w3 : ascii -> ascii -> ascii -> bool.

(** [l] begins with a character recognised by [w1], [w2] or [w3]. *)
Definition leads (l : list ascii) : bool :=
  match l with
  | a :: t =>
      w1 a ||
      match t with
      | b :: t' =>
          w2 a b ||
          match t' with
          | c :: _ => w3 a b c
          | [] => false
          end
      | [] => false
      end
  | [] => false
  end.

(** [l] without the recognised characters it begins with. *)
Fixpoint dropLeading (l : list ascii) : list ascii :=
  match l with
  | a :: t =>
      if w1 a then dropLeading t
      else
        match t with
        | b :: t' =>
            if w2 a b then dropLeading t'
            else
              match t' with
              | c :: t'' => if w3 a b c then dropLeading t'' else l
              | [] => l
              end
        | [] => l
        end
  | [] => []
  end.

End Dropping.

Definition trimStartBytes (l : list ascii) : list ascii :=
  dropLeading space1 space2 space3 l.

(** From the end, the bytes of a character are met last byte first. *)
Definition trimEndBytes (l : list ascii) : list ascii :=
  rev (dropLeading space1 (fun a b => space2 b a)
         (fun a b c => space3 c b a) (rev l)).

(** [s.trim()] *)
Definition trim (s : string) : string :=
  string_of_list_ascii
    (trimEndBytes (trimStartBytes (list_ascii_of_string s))).

(** Truthiness of a string value. *)
Definition truthy (s : string) : bool :=
  match s with EmptyString => false | _ => true end.

(** [a || b] where [a] may be [undefined] and [b] is a string. *)
Definition orElse (a : option string) (b : string) : string :=
  match a with
  | Some s => if truthy s then s else b
  | None => b
  end.

(** [s] starts with [p], letter case ignored: the rest of [s]. *)
Fixpoint stripPrefixCI (p s : string) : option string :=
  match p, s with
  | EmptyString, _ => Some s
  | String a p', String b s' =>
      if Ascii.eqb (lowerAscii a) (lowerAscii b) then stripPrefixCI p' s'
      else None
  | String _ _, EmptyString => None
  end.

(** [name.replace(/IPO:|Acquired By:/i, ...)] with the empty string: the
    leftmost match of either alternative is removed, once. *)
Fixpoint replaceNoise (s : string) : string :=
  match stripPrefixCI "IPO:" s with
  | Some rest => rest
  | None =>
      match stripPrefixCI "Acquired By:" s with
      | Some rest => rest
      | None =>
          match s with
          | EmptyString => EmptyString
          | String c t => String c (replaceNoise t)
          end
      end
  end.

End Js.

Import Js.

(** ** The rate limiter ([class RateLimiter])

  The class is run by a single-threaded event loop.  Its state is the
  object's fields together with the suspension point of the one active
  call chain of [process]; the clock and the promises handed out by
  [add] complete the picture.  The clock is the one [Date.now()] reads.
  A timer set by [setTimeout(resolve, after)] at time [t] fires no
  earlier than [t + timerDelay after], where [timerDelay] is the whole
  number of milliseconds the timers of Node arm themselves with. *)

Module RateLimiter.

Local Open Scope Q_scope.

Section WithResult.

Context {T : Type}.

(** The thunk [fn] given to [add], by what [await fn()] completes with. *)
Definition Task : Type := Completion Error T.

Inductive PromiseState : Type :=
| Pending
| Resolved (result : T)
| Rejected (error : Error).

(** The closure pushed by [add]:
    [try { resolve(await fn()) } catch (error) { reject(error) }],
    as the state it leaves the promise in.  It never rejects itself. *)
Definition settleWith (fn : Task) : PromiseState :=
  match fn with
  | Normal result => Resolved result
  | Throw error => Rejected error
  end.

(** Where the call chain of [process] is suspended. *)
Inductive Drain : Type :=
| Idle
| Sleeping (due : Q)
| Running (p : nat) (fn : Task).

Record World : Type := mkWorld {
  queue : list (nat * Task);
  processing : bool;
  lastRequestTime : Q;
  delayMs : Q;
  drain : Drain;
  now : Q;
  promises : list PromiseState;
  starts : list (nat * Q)
}.

Definition Math_max (a b : Q) : Q := if Qle_bool a b then b else a.

(** The longest delay of a timer, [2 ^ 31 - 1] milliseconds. *)
Definition TIMEOUT_MAX : Q := 2147483647.

(** [setTimeout(resolve, after)]: a delay below one millisecond or above
    [TIMEOUT_MAX] is replaced by one millisecond, any other loses its
    fraction. *)
Definition timerDelay (after : Q) : Q :=
  if Qle_bool 1 after && Qle_bool after TIMEOUT_MAX
  then inject_Z (Qfloor after)
  else 1.

(** [new RateLimiter(requestsPerSecond)] at clock value [t0]. *)
Definition create (requestsPerSecond t0 : Q) : World :=
  {| queue := []; processing := false; lastRequestTime := 0;
     delayMs := 1000 / requestsPerSecond;
     drain := Idle; now := t0; promises := []; starts := [] |}.

(** [process()], up to its first suspension. *)
Definition process (w : World) : World :=
  match queue w with
  | [] =>
      {| queue := queue w; processing := false;
         lastRequestTime := lastRequestTime w; delayMs := delayMs w;
         drain := Idle; now := now w;
         promises := promises w; starts := starts w |}
  | _ :: _ =>
      let timeToWait :=
        Math_max 0 (lastRequestTime w + delayMs w - now w) in
      {| queue := queue w; processing := true;
         lastRequestTime := lastRequestTime w; delayMs := delayMs w;
         drain := Sleeping (now w + timerDelay timeToWait); now := now w;
         promises := promises w; starts := starts w |}
  end.

(** [add(fn)]: the promise it returns is the next entry of [promises]. *)
Definition add (fn : Task) (w : World) : World :=
  let p := length (promises w) in
  let w' :=
    {| queue := queue w ++ [(p, fn)]; processing := processing w;
       lastRequestTime := lastRequestTime w; delayMs := delayMs w;
       drain := drain w; now := now w;
       promises := promises w ++ [Pending]; starts := starts w |} in
  if processing w' then w' else process w'.

(** The timer of [process] fires: [queue.shift()], the start time is
    recorded and the closure is called. *)
Definition timerFires (w : World) : option World :=
  match drain w with
  | Sleeping due =>
      if Qle_bool due (now w) then
        match queue w with
        | (p, fn) :: rest =>
            Some {| queue := rest; processing := processing w;
                    lastRequestTime := now w; delayMs := delayMs w;
                    drain := Running p fn; now := now w;
                    promises := promises w;
                    starts := starts w ++ [(p, now w)] |}
        | [] => Some (process w)
        end
      else None
  | _ => None
  end.

(** [await fn()] of the running closure completes; [process] recurs. *)
Definition taskSettles (w : World) : option World :=
  match drain w with
  | Running p fn =>
      Some (process
              {| queue := queue w; processing := processing w;
                 lastRequestTime := lastRequestTime w;
                 delayMs := delayMs w;
                 drain := drain w; now := now w;
                 promises := <[p := settleWith fn]> (promises w);
                 starts := starts w |})
  | _ => None
  end.

Definition elapse (d : Q) (w : World) : option World :=
  if Qle_bool 0 d then
    Some {| queue := queue w; processing := processing w;
            lastRequestTime := lastRequestTime w; delayMs := delayMs w;
            drain := drain w; now := now w + d;
            promises := promises w; starts := starts w |}
  else None.

Inductive Event : Type :=
| Add (fn : Task)
| Elapse (d : Q)
| TimerFires
| TaskSettles.

Definition step (w : World) (e : Event) : option World :=
  match e with
  | Add fn => Some (add fn w)
  | Elapse d => elapse d w
  | TimerFires => timerFires w
  | TaskSettles => taskSettles w
  end.

Fixpoint run (w : World) (es : list Event) : option World :=
  match es with
  | [] => Some w
  | e :: es' =>
      match step w e with
      | Some w' => run w' es'
      | None => None
      end
  end.

(** The thunks given to [add], in the order of the calls. *)
Fixpoint submitted (es : list Event) : list Task :=
  match es with
  | [] => []
  | Add fn :: es' => fn :: submitted es'
  | _ :: es' => submitted es'
  end.

Definition isAdd (e : Event) : bool :=
  match e with Add _ => true | _ => false end.

(** [q] is a whole number, as every value of [Date.now()] is. *)
Definition whole (q : Q) : bool := Qeq_bool (inject_Z (Qfloor q)) q.

(** The clock moves by whole milliseconds in [es]. *)
Definition wholeSteps (es : list Event) : bool :=
  forallb (fun e => match e with Elapse d => whole d | _ => true end) es.

(** Consecutive entries of [ts] are at least [d] apart. *)
Fixpoint spaced (d : Q) (ts : list Q) : Prop :=
  match ts with
  | a :: (b :: _) as rest => a + d <= b /\ spaced d rest
  | _ => True
  end.

End WithResult.

Arguments Task T : clear implicits.
Arguments PromiseState T : clear implicits.
Arguments World T : clear implicits.
Arguments Event T : clear implicits.

End RateLimiter.

(** ** The retry wrapper ([fetchWithRetry]) *)

Module Retry.

Definition MAX_RETRIES : nat := 3.

(** What a call of [fetchWithRetry] does to the outside, in order. *)
Inductive Effect : Type :=
| Get (url : string)      (* rateLimiter.add(() => axios.get(url, options)) *)
| Delay (ms : nat).       (* await delay(ms) *)

(** [axios.isAxiosError(error) && error.response?.status === 429] *)
Definition tooManyRequests (error : Error) : bool :=
  isAxiosError error &&
  match status error with Some s => (s =? 429)%nat | None => false end.

(** [get k] is the completion of the [k]-th call of [axios.get] that the
    limiter runs for [url]; [attempt] is the number of calls made so far. *)
Fixpoint fetchWithRetry {R : Type} (get : nat -> Completion Error R)
    (url : string) (attempt : nat) (retries : nat)
    : list Effect * Completion Error R :=
  match get attempt with
  | Normal response => ([Get url], Normal response)
  | Throw error =>
      match retries with
      | S retries' =>
          if tooManyRequests error then
            let '(effects, c) :=
              fetchWithRetry get url (S attempt) retries' in
            (Get url :: Delay 2000 :: effects, c)
          else ([Get url], Throw error)
      | O => ([Get url], Throw error)
      end
  end.

(** The number of requests among [effects]. *)
Fixpoint gets (effects : list Effect) : nat :=
  match effects with
  | [] => 0
  | Get _ :: rest => S (gets rest)
  | Delay _ :: rest => gets rest
  end.

End Retry.

(** ** The scrapers ([src/lib/scraper.ts]) *)

Module Scraper.

(** [Partial<Startup>] *)
Record Startup : Type := mkStartup {
  name : option string;
  website : option string;
  linkedin_url : option string;
  source : option string
}.

(** An element of the portfolio page, by what the scraper reads of it:
    [attr("data-name")], [find(".builder-title span").text()] and
    [find("h1,h2,h3,h4,h5,h6").first().text()]. *)
Record Element : Type := mkElement {
  data_name : option string;
  builder_title : string;
  heading : string
}.

(** The parsed page [$]: [$(selector).toArray()]. *)
Definition Document : Type := string -> list Element.

(** What the company loop reads of an entry whose [name], if it has one,
    is a string: [company_name = None] when the name is absent or falsy
    (the loop passes the entry over), [company_website = None] when the
    website is.  A website, where present, is taken to be a string. *)
Record Company : Type := mkCompany {
  company_name : option string;
  company_website : option string
}.

(** An entry of [response.data.companies], by what the condition of the
    company loop,
    [company.name && !processedNames.has(company.name.toLowerCase())],
    does with it.  The response is untyped JSON.  Of [null] no [name] can
    be read ([NullEntry]); a name that is a number other than [0], [true],
    an array or an object is truthy and has no method [toLowerCase]
    ([OddName]): on either the condition throws a [TypeError].  Any other
    entry is a [Listing]. *)
Inductive Entry : Type :=
| NullEntry
| OddName
| Listing (company : Company).

(** [response.data.companies]: absent or falsy ([Missing]); an array
    ([Entries]; a string is iterated as well, its characters are entries
    without a name); or a truthy value that cannot be iterated, a number,
    [true] or an object ([NotIterable]), whose [length] is not [0] and on
    which [for ... of] throws. *)
Inductive Companies : Type :=
| Missing
| Entries (entries : list Entry)
| NotIterable.

(** [response.data]: [next] and [nextPage] are the truthiness of those
    fields. *)
Record Page : Type := mkPage {
  companies : Companies;
  next : bool;
  nextPage : bool
}.

(** The body of a response: [null] or [undefined], of which no
    [companies] can be read, or a value with fields. *)
Inductive Body : Type :=
| NoData
| Data (data : Page).

(** The outside world of one scrape run.  [portfolio url] is the
    completion of the awaited call of [fetchWithRetry] and of
    [cheerio.load] on its response, which the same [try] encloses;
    [directory batch page k] is the completion of the awaited call of
    [fetchWithRetry] ([k] counts the page fetches made so far);
    [linkedIn name] is the completion of the awaited look-up in the
    per-item [try] block.  [getLinkedInUrl] of this file absorbs its own
    errors, the [Throw] case stands for any exception inside that block.
    [toLowerCase] is [String.prototype.toLowerCase] of the platform. *)
Record Env : Type := mkEnv {
  toLowerCase : string -> string;
  portfolio : string -> Completion Error Document;
  linkedIn : string -> Completion Error string;
  directory : string -> nat -> nat -> Completion Error Body
}.

Definition YC_BATCHES : list string := ["W24"].

Definition validateCompany (company : Startup) : bool :=
  match name company with
  | None => false
  | Some n =>
      if negb (truthy n) || (stringLength (trim n) <? 2)%nat then false
      else true
  end.

(** *** scrapeA16z *)

Module A16z.
(** [tried] and [processed] record the selectors queried and the
    elements the item loop went through. *)
Record State : Type := mkState {
  startups : list Startup;
  processedNames : gset string;
  tried : list string;
  processed : list Element
}.
Definition init : State :=
  {| startups := []; processedNames := ∅; tried := []; processed := [] |}.
End A16z.

Definition urls : list string := ["https://a16z.com/portfolio/"].

Definition selectors : list string :=
  [ ".company-grid-item"; ".builder"; "[data-v-7c2c5638].builder";
    "[data-filter-by]"; "[data-name]"; ".portfolio-company";
    ".portfolio-grid > div" ].

Definition extractName (element : Element) : string :=
  orElse (data_name element)
    (orElse (Some (trim (builder_title element)))
       (trim (heading element))).

(** The body of [for (const item of items)]. *)
Definition a16zItem (env : Env) (st : A16z.State) (item : Element)
    : A16z.State :=
  let st :=
    {| A16z.startups := A16z.startups st;
       A16z.processedNames := A16z.processedNames st;
       A16z.tried := A16z.tried st;
       A16z.processed := A16z.processed st ++ [item] |} in
  let name0 := extractName item in
  if truthy name0 then
    let name1 := trim (replaceNoise name0) in
    if bool_decide (toLowerCase env name1 ∈ A16z.processedNames st) then st
    else
      match linkedIn env name1 with
      | Throw _ => st
      | Normal url =>
          let companyData :=
            {| name := Some name1; website := Some "not found";
               linkedin_url := Some url; source := Some "a16z" |} in
          if validateCompany companyData then
            {| A16z.startups := A16z.startups st ++ [companyData];
               A16z.processedNames :=
                 {[ toLowerCase env name1 ]} ∪ A16z.processedNames st;
               A16z.tried := A16z.tried st;
               A16z.processed := A16z.processed st |}
          else st
      end
  else st.

(** [for (const selector of selectors)], with its [break]. *)
Fixpoint selectorLoop (env : Env) (doc : Document) (sels : list string)
    (st : A16z.State) : A16z.State :=
  match sels with
  | [] => st
  | selector :: rest =>
      let items := doc selector in
      let st :=
        {| A16z.startups := A16z.startups st;
           A16z.processedNames := A16z.processedNames st;
           A16z.tried := A16z.tried st ++ [selector];
           A16z.processed := A16z.processed st |} in
      if (0 <? length items)%nat then
        let st := foldl (a16zItem env) st items in
        if (0 <? length (A16z.startups st))%nat then st
        else selectorLoop env doc rest st
      else selectorLoop env doc rest st
  end.

(** [for (const url of urls)]: a failed fetch moves on to the next URL. *)
Fixpoint urlLoop (env : Env) (us : list string) (sels : list string)
    (st : A16z.State) : A16z.State :=
  match us with
  | [] => st
  | url :: rest =>
      match portfolio env url with
      | Throw _ => urlLoop env rest sels st
      | Normal doc =>
          let st := selectorLoop env doc sels st in
          if (0 <? length (A16z.startups st))%nat then st
          else urlLoop env rest sels st
      end
  end.

Definition a16zRun (env : Env) : A16z.State :=
  urlLoop env urls selectors A16z.init.

Definition scrapeA16z (env : Env) : Completion Error (list Startup) :=
  Normal (A16z.startups (a16zRun env)).

(** *** scrapeYCombinator *)

Module YC.
(** [attempts] counts the page fetches made so far. *)
Record State : Type := mkState {
  startups : list Startup;
  processedNames : gset string;
  page : nat;
  hasMore : bool;
  consecutiveErrors : nat;
  attempts : nat
}.
End YC.

Definition MAX_CONSECUTIVE_ERRORS : nat := 3.

(** The body of [for (const company of companies)] on a [Listing]. *)
Definition ycCompany (env : Env) (batch : string) (st : YC.State)
    (company : Company) : YC.State :=
  match company_name company with
  | Some cname =>
      if truthy cname &&
         negb (bool_decide (toLowerCase env cname ∈ YC.processedNames st))
      then
        match linkedIn env cname with
        | Normal url =>
            let startup :=
              {| name := Some cname;
                 website := Some (orElse (company_website company) "not found");
                 linkedin_url := Some (orElse (Some url) "not found");
                 source := Some ("YC " ++ batch) |} in
            if validateCompany startup then
              {| YC.startups := YC.startups st ++ [startup];
                 YC.processedNames :=
                   {[ toLowerCase env cname ]} ∪ YC.processedNames st;
                 YC.page := YC.page st; YC.hasMore := YC.hasMore st;
                 YC.consecutiveErrors := YC.consecutiveErrors st;
                 YC.attempts := YC.attempts st |}
            else st
        | Throw _ =>
            {| YC.startups := YC.startups st;
               YC.processedNames := YC.processedNames st;
               YC.page := YC.page st; YC.hasMore := YC.hasMore st;
               YC.consecutiveErrors := S (YC.consecutiveErrors st);
               YC.attempts := YC.attempts st |}
        end
      else st
  | None => st
  end.

(** How [for (const company of companies)] ends: at the end of the
    list, or by the exception of the condition of its [if], which no
    [try] of the loop body surrounds; with the state reached. *)
Inductive LoopEnd : Type :=
| Finished (st : YC.State)
| Raised (st : YC.State).

Fixpoint ycCompanies (env : Env) (batch : string) (st : YC.State)
    (entries : list Entry) : LoopEnd :=
  match entries with
  | [] => Finished st
  | NullEntry :: _ => Raised st
  | OddName :: _ => Raised st
  | Listing company :: rest =>
      ycCompanies env batch (ycCompany env batch st company) rest
  end.

(** The page-level [catch] after [attempts] earlier fetches: the error
    is counted, the page number and [hasMore] stay. *)
Definition ycCatch (attempts : nat) (st : YC.State) : YC.State :=
  {| YC.startups := YC.startups st;
     YC.processedNames := YC.processedNames st;
     YC.page := YC.page st; YC.hasMore := YC.hasMore st;
     YC.consecutiveErrors := S (YC.consecutiveErrors st);
     YC.attempts := S attempts |}.

(** [companies.length === 0]: [hasMore = false; break]. *)
Definition ycBreak (st : YC.State) : YC.State :=
  {| YC.startups := YC.startups st;
     YC.processedNames := YC.processedNames st;
     YC.page := YC.page st; YC.hasMore := false;
     YC.consecutiveErrors := YC.consecutiveErrors st;
     YC.attempts := S (YC.attempts st) |}.

(** One turn of the [while] loop: the page-level [try]/[catch]. *)
Definition ycPage (env : Env) (batch : string) (st : YC.State) : YC.State :=
  match directory env batch (YC.page st) (YC.attempts st) with
  | Normal (Data data) =>
      match companies data with
      | Missing => ycBreak st
      | Entries [] => ycBreak st
      | Entries entries =>
          match ycCompanies env batch st entries with
          | Finished st' =>
              {| YC.startups := YC.startups st';
                 YC.processedNames := YC.processedNames st';
                 YC.page := S (YC.page st');
                 YC.hasMore := next data || nextPage data;
                 YC.consecutiveErrors := 0;
                 YC.attempts := S (YC.attempts st) |}
          | Raised st' => ycCatch (YC.attempts st) st'
          end
      | NotIterable => ycCatch (YC.attempts st) st
      end
  | Normal NoData => ycCatch (YC.attempts st) st
  | Throw _ => ycCatch (YC.attempts st) st
  end.

Definition ycContinue (st : YC.State) : bool :=
  YC.hasMore st && (YC.consecutiveErrors st <? MAX_CONSECUTIVE_ERRORS)%nat.

(** [while (hasMore && consecutiveErrors < MAX_CONSECUTIVE_ERRORS)];
    [None] when [fuel] turns did not reach the exit. *)
Fixpoint ycLoop (fuel : nat) (env : Env) (batch : string) (st : YC.State)
    : option YC.State :=
  if ycContinue st then
    match fuel with
    | O => None
    | S fuel' => ycLoop fuel' env batch (ycPage env batch st)
    end
  else Some st.

(** The state at the head of a cohort: [page = 0], [hasMore = true],
    [consecutiveErrors = 0]; the results and the seen names carry over. *)
Definition ycCohort (st : YC.State) : YC.State :=
  {| YC.startups := YC.startups st;
     YC.processedNames := YC.processedNames st;
     YC.page := 0; YC.hasMore := true; YC.consecutiveErrors := 0;
     YC.attempts := YC.attempts st |}.

Definition ycInit : YC.State :=
  {| YC.startups := []; YC.processedNames := ∅; YC.page := 0;
     YC.hasMore := true; YC.consecutiveErrors := 0; YC.attempts := 0 |}.

(** [for (const batch of YC_BATCHES)] *)
Fixpoint batchLoop (fuel : nat) (env : Env) (batches : list string)
    (st : YC.State) : option YC.State :=
  match batches with
  | [] => Some st
  | batch :: rest =>
      match ycLoop fuel env batch (ycCohort st) with
      | Some st' => batchLoop fuel env rest st'
      | None => None
      end
  end.

Definition scrapeYCombinator (fuel : nat) (env : Env)
    : option (Completion Error (list Startup)) :=
  match batchLoop fuel env YC_BATCHES ycInit with
  | Some st => Some (Normal (YC.startups st))
  | None => None
  end.

(** *** scrapeStartups: [Promise.all] of the two, then concatenation;
    an error of either is handed on. *)
Definition scrapeStartups (fuel : nat) (env : Env)
    : option (Completion Error (list Startup)) :=
  match scrapeYCombinator fuel env with
  | None => None
  | Some yc =>
      Some match scrapeA16z env, yc with
           | Normal a16zStartups, Normal ycStartups =>
               Normal (a16zStartups ++ ycStartups)%list
           | Throw error, _ => Throw error
           | _, Throw error => Throw error
           end
  end.

End Scraper.

(** ** The ingestion endpoint ([GET] of [/api/scrape]) *)

Module Ingest.

Import Scraper.

(** A row of the table [startups], as [GET] writes it. *)
Record Row : Type := mkRow {
  row_name : string;
  row_website : string;
  row_linkedin_url : string;
  created_at : string
}.

(** The two calls [GET] makes on [supabase.from("startups")]: the upsert
    with [{ onConflict: "name", ignoreDuplicates: true }], which answers
    with an error or not, and the exact count. *)
Record Storage : Type := mkStorage {
  Store : Type;
  upsert : Store -> list Row -> Completion Error Store;
  count : Store -> nat
}.

(** [results.map((startup) => ({ ... }))]; [clock i] is the value of
    [new Date().toISOString()] when the [i]-th result is mapped. *)
Definition toInsert (clock : nat -> string) (i : nat) (startup : Startup)
    : Row :=
  {| row_name := orElse (name startup) "Unknown";
     row_website := orElse (website startup) "not found";
     row_linkedin_url := orElse (linkedin_url startup) "not found";
     created_at := clock i |}.

Inductive Body : Type :=
| Success (newCount : nat) (totalCount : nat) (message : string)
| Failure (error : string) (details : string).

Record Response : Type := mkResponse {
  body : Body;
  status : nat
}.

Definition failed (error : Error) : Response :=
  {| body :=
       Failure "Operation failed"
         (if instanceofError error then message error else "Unknown error");
     status := 500 |}.

(** [GET()]: the store after the call, and the response. *)
Definition GET (db : Storage) (fuel : nat) (env : Env)
    (clock : nat -> string) (store : Store db)
    : option (Store db * Response) :=
  match scrapeStartups fuel env with
  | None => None
  | Some (Throw error) => Some (store, failed error)
  | Some (Normal results) =>
      let written :=
        if (0 <? length results)%nat then
          let startupsToInsert := imap (toInsert clock) results in
          upsert db store startupsToInsert
        else Normal store in
      match written with
      | Throw upsertError => Some (store, failed upsertError)
      | Normal store' =>
          let totalCount := count db store' in
          Some (store',
                {| body :=
                     Success (length results) totalCount
                       (if (length results =? 0)%nat
                        then "No new startups found"
                        else "Scrape completed successfully");
                   status := 200 |})
      end
  end.

(** Modelled from the spec: the storage collaborator behind
    [supabase.from("startups")] is not part of the sources.  It is "a
    record store exposing ... count of all records" and "batch upsert
    keyed by name with duplicate-ignore semantics", where "storage treats
    [name] as a natural key for conflict resolution (insert-or-ignore on
    duplicate name)" and, within a batch, "first occurrence wins". *)
Definition upsertRow (store : gmap string Row) (row : Row)
    : gmap string Row :=
  match store !! row_name row with
  | Some _ => store
  | None => <[ row_name row := row ]> store
  end.

(** Modelled from the spec: the "batch upsert" of the storage collaborator,
    the rows of the batch in their order. *)
Definition upsertRows (store : gmap string Row) (rows : list Row)
    : gmap string Row :=
  foldl upsertRow store rows.

(** Modelled from the spec: the storage collaborator as a whole, a map
    from names to rows whose upsert does not fail and whose count is the
    number of rows. *)
Definition nameKeyed : Storage :=
  {| Store := gmap string Row;
     upsert := fun store rows => Normal (upsertRows store rows);
     count := fun store => size store |}.

End Ingest.

(** * Properties *)

(** ** The string helpers on sample inputs *)

Section StringSamples.

Example trim_sample : trim "  Acme Corp 	" = "Acme Corp".
Proof. reflexivity. Qed.

Example trim_blank : trim "   " = EmptyString.
Proof. reflexivity. Qed.

(** The bytes of U+00A0 (no-break space), of U+00E9 (e with acute), of
    U+2028 (line separator) and of U+1F680 (a character outside the basic
    plane, two UTF-16 units). *)
Definition bytes (l : list nat) : string :=
  string_of_list_ascii (Ascii.ascii_of_nat <$> l).

Definition nbsp : string := bytes [194; 160].
Definition eAcute : string := bytes [195; 169].
Definition lineSeparator : string := bytes [226; 128; 168].
Definition rocket : string := bytes [240; 159; 154; 128].

Example trim_unicode_space :
  trim (nbsp ++ " Acme" ++ lineSeparator ++ nbsp) = "Acme" /\
  trim (eAcute ++ nbsp) = eAcute /\
  trim (" " ++ eAcute ++ "cole ") = eAcute ++ "cole".
Proof. by split_and!. Qed.

Example stringLength_samples :
  stringLength "Acme" = 4 /\ stringLength eAcute = 1 /\
  stringLength nbsp = 1 /\ stringLength rocket = 2.
Proof. by split_and!. Qed.

Example asciiLowerCase_sample : asciiLowerCase "OpenAI [X]" = "openai [x]".
Proof. reflexivity. Qed.

Example replaceNoise_first_only :
  replaceNoise "ipo: Foo Acquired By: Bar" = " Foo Acquired By: Bar".
Proof. reflexivity. Qed.

Example replaceNoise_inside :
  trim (replaceNoise "Foo Acquired by: Bar") = "Foo  Bar".
Proof. reflexivity. Qed.

Example validateCompany_samples :
  Scraper.validateCompany
    (Scraper.mkStartup (Some " A ") None None None) = false /\
  Scraper.validateCompany
    (Scraper.mkStartup (Some "Ab") None None None) = true /\
  Scraper.validateCompany (Scraper.mkStartup None None None None) = false /\
  Scraper.validateCompany
    (Scraper.mkStartup (Some eAcute) None None None) = false /\
  Scraper.validateCompany
    (Scraper.mkStartup (Some ("A" ++ nbsp)) None None None) = false /\
  Scraper.validateCompany
    (Scraper.mkStartup (Some rocket) None None None) = true.
Proof. by split_and!. Qed.

End StringSamples.

(** ** Rate limiter: order and spacing of the task starts *)

Section RateLimiterOrder.

Import RateLimiter.
Local Open Scope Q_scope.
Local Open Scope list_scope.

Context {T : Type}.
Implicit Types (w : World T) (e : Event T) (es : list (Event T)).

Lemma Math_max_r (a b : Q) : b <= Math_max a b.
Proof.
  unfold Math_max. destruct (Qle_bool a b) eqn:E; [lra|].
  assert (~ a <= b) by (rewrite <- Qle_bool_iff, E; discriminate). lra.
Qed.

Lemma Math_max_l (a b : Q) : a <= Math_max a b.
Proof.
  unfold Math_max. destruct (Qle_bool a b) eqn:E; [|lra].
  by apply Qle_bool_iff.
Qed.

Lemma spaced_snoc (d : Q) (ts : list Q) (t : Q) :
  spaced d ts ->
  (forall a, last ts = Some a -> a + d <= t) ->
  spaced d (ts ++ [t]).
Proof.
  induction ts as [|a [|b ts] IH]; intros Hs Hl; simpl in *.
  - done.
  - split; [|done]. by apply Hl.
  - destruct Hs as [Hab Hs]. split; [done|]. apply IH; [done|].
    intros c Hc. apply Hl. done.
Qed.

Lemma Math_max_lub (a b c : Q) : a <= c -> b <= c -> Math_max a b <= c.
Proof. unfold Math_max. by destruct (Qle_bool a b). Qed.

Lemma spaced_le (d d' : Q) (ts : list Q) :
  d' <= d -> spaced d ts -> spaced d' ts.
Proof.
  intros Hd. induction ts as [|a [|b ts] IH]; simpl; try done.
  intros [Hab Hs]. split; [lra|]. by apply IH.
Qed.

Lemma whole_spec (q : Q) : whole q = true <-> q == inject_Z (Qfloor q).
Proof.
  unfold whole. rewrite Qeq_bool_iff. split; intros H; symmetry; exact H.
Qed.

Lemma whole_inject_Z (z : Z) : whole (inject_Z z) = true.
Proof. apply whole_spec. by rewrite Qfloor_Z. Qed.

Lemma whole_eq (q : Q) (z : Z) : q == inject_Z z -> whole q = true.
Proof.
  intros H. apply whole_spec. rewrite (Qfloor_comp _ _ H), Qfloor_Z. exact H.
Qed.

Lemma whole_plus (a b : Q) :
  whole a = true -> whole b = true -> whole (a + b) = true.
Proof.
  intros Ha Hb. apply whole_spec in Ha, Hb.
  apply (whole_eq _ (Qfloor a + Qfloor b)).
  rewrite inject_Z_plus. rewrite <- Ha, <- Hb. reflexivity.
Qed.

Lemma whole_minus (a b : Q) :
  whole a = true -> whole b = true -> whole (a - b) = true.
Proof.
  intros Ha Hb. apply whole_spec in Ha, Hb.
  apply (whole_eq _ (Qfloor a - Qfloor b)).
  unfold Z.sub. rewrite inject_Z_plus, inject_Z_opp.
  rewrite <- Ha, <- Hb. reflexivity.
Qed.

(** A whole number below [x] is below the whole part of [x]. *)
Lemma whole_le_floor (k x : Q) :
  whole k = true -> k <= x -> k <= inject_Z (Qfloor x).
Proof.
  rewrite whole_spec. intros Hk Hle. rewrite Hk.
  rewrite <- Zle_Qle. apply Qfloor_resp_le. exact Hle.
Qed.

(** The delay of a timer is at most a millisecond short of the time
    asked for, and whole. *)
Lemma timerDelay_whole (after : Q) : whole (timerDelay after) = true.
Proof.
  unfold timerDelay. destruct (_ && _); [apply whole_inject_Z|].
  by apply (whole_eq _ 1).
Qed.

(** What every reachable state satisfies: the tickets of the started
    tasks and then of the queued ones count up from 0, and the start
    recorded last is [lastRequestTime]. *)
Record OrderInv (d : Q) (w : World T) : Prop := {
  oi_delay : delayMs w = d;
  oi_started : (starts w).*1 = seq 0 (length (starts w));
  oi_queued :
    (queue w).*1 = seq (length (starts w)) (length (queue w));
  oi_total :
    (length (starts w) + length (queue w))%nat = length (promises w);
  oi_last :
    forall t, last (starts w).*2 = Some t -> t = lastRequestTime w
}.

Lemma OrderInv_create (rps t0 : Q) : OrderInv (1000 / rps) (create rps t0).
Proof. by constructor. Qed.

Lemma OrderInv_process d w : OrderInv d w -> OrderInv d (process w).
Proof.
  intros [Hd Hs Hq Ht Hl]. unfold process.
  destruct (queue w) as [|x q] eqn:Eq; constructor; simpl;
    rewrite ?Eq; done.
Qed.

Lemma OrderInv_add d w fn : OrderInv d w -> OrderInv d (add fn w).
Proof.
  intros Hw.
  assert (OrderInv d
    {| queue := queue w ++ [(length (promises w), fn)];
       processing := processing w;
       lastRequestTime := lastRequestTime w; delayMs := delayMs w;
       drain := drain w; now := now w;
       promises := promises w ++ [Pending]; starts := starts w |}) as H1.
  { destruct Hw as [Hd Hs Hq Ht Hl]. constructor; simpl; try done.
    - rewrite fmap_app, Hq, length_app. simpl.
      rewrite seq_app. simpl. by rewrite Ht.
    - rewrite !length_app. simpl. lia. }
  unfold add. simpl. destruct (processing w); [done|].
  by apply OrderInv_process.
Qed.

Lemma OrderInv_step d w e w' :
  OrderInv d w -> step w e = Some w' -> OrderInv d w'.
Proof.
  intros Hw He. destruct e as [fn|dt| |]; simpl in He.
  - injection He as <-. by apply OrderInv_add.
  - unfold elapse in He. destruct (Qle_bool 0 dt); [|done].
    injection He as <-. destruct Hw. by constructor.
  - unfold timerFires in He.
    destruct (drain w) as [|due|] eqn:Edr; try done.
    destruct (Qle_bool due (now w)) eqn:Edue; [|done].
    destruct (queue w) as [|[p fn] rest] eqn:Eq.
    + injection He as <-. by apply OrderInv_process.
    + injection He as <-.
      destruct Hw as [Hd Hs Hq Ht Hl].
      rewrite Eq in Hq, Ht. simpl in Hq, Ht. injection Hq as Hp Hrest.
      constructor; simpl; try done.
      * rewrite fmap_app, Hs, length_app. simpl.
        rewrite seq_app. simpl. by rewrite Hp.
      * rewrite length_app. simpl.
        by replace (length (starts w) + 1)%nat with (S (length (starts w)))
          by lia.
      * rewrite length_app. simpl. lia.
      * intros t. rewrite fmap_app. simpl. rewrite last_snoc. congruence.
  - unfold taskSettles in He.
    destruct (drain w) as [| |p fn] eqn:Edr; try done.
    injection He as <-. apply OrderInv_process.
    destruct Hw as [Hd Hs Hq Ht Hl].
    constructor; simpl; rewrite ?length_insert, ?Edr; done.
Qed.

Lemma OrderInv_run d es : forall w w',
  OrderInv d w -> run w es = Some w' -> OrderInv d w'.
Proof.
  induction es as [|e es IH]; intros w w' Hw Hr; simpl in Hr.
  - by injection Hr as <-.
  - destruct (step w e) as [w1|] eqn:E1; [|done].
    eapply IH; [|exact Hr]. by eapply OrderInv_step.
Qed.

(** What every state reached on a clock of whole milliseconds satisfies,
    when the interval [d] is within the range of the timers: the recorded
    starts are [floor d] apart, and a pending timer is due no earlier than
    [floor d] after the last start. *)
Record PaceInv (d : Q) (w : World T) : Prop := {
  pi_delay : delayMs w = d;
  pi_now : whole (now w) = true;
  pi_last_whole : whole (lastRequestTime w) = true;
  pi_last_now : lastRequestTime w <= now w;
  pi_spaced : spaced (inject_Z (Qfloor d)) (starts w).*2;
  pi_last :
    forall t, last (starts w).*2 = Some t -> t = lastRequestTime w;
  pi_due :
    forall due, drain w = Sleeping due ->
      lastRequestTime w + inject_Z (Qfloor d) <= due
}.

Lemma PaceInv_create (rps t0 : Q) :
  0 <= t0 -> whole t0 = true -> PaceInv (1000 / rps) (create rps t0).
Proof. intros H0 Hw. constructor; simpl; try done. Qed.

Lemma PaceInv_process d w :
  d <= TIMEOUT_MAX -> PaceInv d w -> PaceInv d (process w).
Proof.
  intros Hmax [Hd Hn Hlw Hln Hsp Hl Hdue]. unfold process.
  destruct (queue w) as [|x q] eqn:Eq; constructor; simpl;
    rewrite ?Eq; try done.
  intros due [= <-]. rewrite Hd.
  set (ttw := Math_max 0 (lastRequestTime w + d - now w)).
  pose proof (Math_max_r 0 (lastRequestTime w + d - now w)) as Hr.
  fold ttw in Hr.
  pose proof (Qfloor_le d) as Hfl.
  unfold timerDelay.
  destruct (Qle_bool 1 ttw) eqn:E1; simpl.
  - destruct (Qle_bool ttw TIMEOUT_MAX) eqn:E2.
    + assert (lastRequestTime w + inject_Z (Qfloor d) - now w
              <= inject_Z (Qfloor ttw)) as Hk.
      { apply whole_le_floor; [|lra].
        apply whole_minus; [|done].
        apply whole_plus; [done|apply whole_inject_Z]. }
      lra.
    + assert (ttw <= TIMEOUT_MAX) as Hle.
      { apply Math_max_lub; [done|lra]. }
      apply Qle_bool_iff in Hle. congruence.
  - assert (~ 1 <= ttw) as Hlt
      by (rewrite <- Qle_bool_iff, E1; discriminate).
    lra.
Qed.

Lemma PaceInv_add d w fn :
  d <= TIMEOUT_MAX -> PaceInv d w -> PaceInv d (add fn w).
Proof.
  intros Hmax Hw.
  assert (PaceInv d
    {| queue := queue w ++ [(length (promises w), fn)];
       processing := processing w;
       lastRequestTime := lastRequestTime w; delayMs := delayMs w;
       drain := drain w; now := now w;
       promises := promises w ++ [Pending]; starts := starts w |}) as H1.
  { destruct Hw. by constructor. }
  unfold add. simpl. destruct (processing w); [done|].
  by apply PaceInv_process.
Qed.

Lemma PaceInv_step d w e w' :
  d <= TIMEOUT_MAX ->
  PaceInv d w -> wholeSteps [e] = true -> step w e = Some w' ->
  PaceInv d w'.
Proof.
  intros Hmax Hw Hwh He. destruct e as [fn|dt| |]; simpl in He.
  - injection He as <-. by apply PaceInv_add.
  - unfold elapse in He. destruct (Qle_bool 0 dt) eqn:E0; [|done].
    apply Qle_bool_iff in E0. simpl in Hwh. rewrite andb_true_r in Hwh.
    injection He as <-. destruct Hw as [Hd Hn Hlw Hln Hsp Hl Hdue].
    constructor; simpl; try done; [by apply whole_plus|lra].
  - unfold timerFires in He.
    destruct (drain w) as [|due|] eqn:Edr; try done.
    destruct (Qle_bool due (now w)) eqn:Edue; [|done].
    apply Qle_bool_iff in Edue.
    destruct (queue w) as [|[p fn] rest] eqn:Eq.
    + injection He as <-. by apply PaceInv_process.
    + injection He as <-.
      destruct Hw as [Hd Hn Hlw Hln Hsp Hl Hdue].
      constructor; simpl; try done.
      * lra.
      * rewrite fmap_app. simpl. apply spaced_snoc; [done|].
        intros a Ha. rewrite (Hl a Ha).
        specialize (Hdue due Edr). lra.
      * intros t. rewrite fmap_app. simpl. rewrite last_snoc. congruence.
  - unfold taskSettles in He.
    destruct (drain w) as [| |p fn] eqn:Edr; try done.
    injection He as <-. apply PaceInv_process; [done|].
    destruct Hw as [Hd Hn Hlw Hln Hsp Hl Hdue].
    constructor; simpl; rewrite ?Edr; done.
Qed.

Lemma PaceInv_run d es : forall w w',
  d <= TIMEOUT_MAX ->
  PaceInv d w -> wholeSteps es = true -> run w es = Some w' ->
  PaceInv d w'.
Proof.
  induction es as [|e es IH]; intros w w' Hmax Hw Hwh Hr; simpl in Hr.
  - by injection Hr as <-.
  - destruct (step w e) as [w1|] eqn:E1; [|done].
    simpl in Hwh. apply andb_true_iff in Hwh as [He Hes].
    eapply IH; [done| |exact Hes|exact Hr].
    eapply PaceInv_step; [done|exact Hw| |exact E1].
    simpl. by rewrite He.
Qed.

End RateLimiterOrder.

(** ** Rate limiter: every promise gets its own task's outcome *)

Section RateLimiterOutcomes.

Import RateLimiter.
Local Open Scope Q_scope.
Local Open Scope list_scope.

Context {T : Type}.
Implicit Types (w : World T) (e : Event T) (es : list (Event T))
  (tasks : list (Task T)).

(** The tasks with their tickets, in the order of submission. *)
Definition tickets tasks : list (nat * Task T) := imap pair tasks.

(** The number of tasks whose closure has run to its end. *)
Definition finished w : nat :=
  match drain w with
  | Running _ _ => pred (length (starts w))
  | _ => length (starts w)
  end.

(** What every state reached after submitting [tasks] satisfies. *)
Record OutcomeInv tasks w : Prop := {
  ui_started : (length (starts w) <= length tasks)%nat;
  ui_queue : queue w = drop (length (starts w)) (tickets tasks);
  ui_length : length (promises w) = length tasks;
  ui_promises : forall i fn,
    tasks !! i = Some fn ->
    promises w !! i =
      Some (if bool_decide (i < finished w)%nat then settleWith fn
            else Pending);
  ui_drain :
    match drain w with
    | Idle => queue w = [] /\ processing w = false
    | Sleeping _ => queue w <> [] /\ processing w = true
    | Running p fn =>
        S p = length (starts w) /\ tasks !! p = Some fn /\
        processing w = true
    end
}.

Lemma tickets_snoc tasks fn :
  tickets (tasks ++ [fn]) = tickets tasks ++ [(length tasks, fn)].
Proof.
  unfold tickets. rewrite imap_app. simpl. by rewrite Nat.add_0_r.
Qed.

Lemma tickets_lookup tasks i p fn :
  tickets tasks !! i = Some (p, fn) -> p = i /\ tasks !! i = Some fn.
Proof.
  unfold tickets. rewrite list_lookup_imap.
  destruct (tasks !! i); simpl; [|done]. by intros [= <- <-].
Qed.

Lemma drop_cons_inv {A} (l : list A) k x rest :
  drop k l = x :: rest -> l !! k = Some x /\ rest = drop (S k) l.
Proof.
  intros H. assert (l !! k = Some x) as Hk.
  { replace k with (k + 0)%nat by lia. rewrite <- lookup_drop, H. done. }
  split; [done|]. rewrite (drop_S _ _ _ Hk) in H. congruence.
Qed.

Lemma OutcomeInv_create (rps t0 : Q) : OutcomeInv [] (create rps t0).
Proof. by constructor. Qed.

(** [process()] entered from a state in which no call of it is suspended. *)
Lemma OutcomeInv_process tasks w n :
  (length (starts w) <= length tasks)%nat ->
  queue w = drop (length (starts w)) (tickets tasks) ->
  length (promises w) = length tasks ->
  n = length (starts w) ->
  (forall i fn, tasks !! i = Some fn ->
     promises w !! i =
       Some (if bool_decide (i < n)%nat then settleWith fn else Pending)) ->
  OutcomeInv tasks (process w).
Proof.
  intros Hs Hq Hl -> Hp. unfold process.
  destruct (queue w) as [|x q] eqn:Eq; constructor; simpl;
    rewrite ?Eq; done.
Qed.

Lemma OutcomeInv_add tasks w fn :
  OutcomeInv tasks w -> OutcomeInv (tasks ++ [fn]) (add fn w).
Proof.
  intros [Hs Hq Hl Hp Hd].
  assert (finished w <= length tasks)%nat as Hfin.
  { unfold finished. destruct (drain w); lia. }
  assert (forall i fn', (tasks ++ [fn]) !! i = Some fn' ->
    (promises w ++ [Pending]) !! i =
      Some (if bool_decide (i < finished w)%nat then settleWith fn'
            else Pending)) as Hp'.
  { intros i fn' Hi. destruct (decide (i < length tasks)%nat) as [Hlt|Hge].
    - rewrite lookup_app_l in Hi by done.
      rewrite lookup_app_l by lia. by apply Hp.
    - rewrite lookup_app_r in Hi by lia.
      rewrite lookup_app_r by lia. rewrite Hl.
      destruct (i - length tasks)%nat; [|done].
      rewrite bool_decide_eq_false_2 by lia. done. }
  assert (queue w ++ [(length (promises w), fn)] =
          drop (length (starts w)) (tickets (tasks ++ [fn]))) as Hq'.
  { rewrite tickets_snoc, drop_app_le, Hq, Hl; [done|].
    unfold tickets. rewrite length_imap. done. }
  unfold add. simpl. destruct (processing w) eqn:Epr.
  - constructor; simpl; rewrite ?length_app; simpl; try done; try lia.
    destruct (drain w) as [|due|p fn0]; simpl in *.
    + destruct Hd; congruence.
    + split; [|tauto]. by destruct (queue w).
    + destruct Hd as (? & Hfn & ?). split_and!; try done.
      apply lookup_app_l_Some. done.
  - destruct (drain w) as [|due|p fn0] eqn:Edr; simpl in *;
      [|destruct Hd; congruence|destruct Hd as (?&?&?); congruence].
    eapply OutcomeInv_process; simpl; rewrite ?length_app; simpl;
      try done; try lia.
    unfold finished in Hp'. rewrite Edr in Hp'. done.
Qed.

Lemma OutcomeInv_step_other tasks w e w' :
  OutcomeInv tasks w -> isAdd e = false -> step w e = Some w' ->
  OutcomeInv tasks w'.
Proof.
  intros Hw Hna He. destruct e as [fn|dt| |]; simpl in He; [done| | |].
  - unfold elapse in He. destruct (Qle_bool 0 dt); [|done].
    injection He as <-. destruct Hw. by constructor.
  - unfold timerFires in He.
    destruct (drain w) as [|due|] eqn:Edr; try done.
    destruct (Qle_bool due (now w)); [|done].
    destruct Hw as [Hs Hq Hl Hp Hd]. rewrite Edr in Hd.
    destruct (queue w) as [|[p fn] rest] eqn:Eq; [by destruct Hd|].
    injection He as <-. symmetry in Hq.
    apply drop_cons_inv in Hq as [Hk Hrest].
    apply tickets_lookup in Hk as [-> Hfn].
    apply lookup_lt_Some in Hfn as Hlt.
    constructor; simpl; rewrite ?length_app; simpl.
    + lia.
    + by replace (length (starts w) + 1)%nat with (S (length (starts w)))
        by lia.
    + done.
    + intros i fn' Hi. rewrite (Hp i fn' Hi).
      unfold finished. simpl. rewrite Edr, length_app. simpl.
      by replace (pred (length (starts w) + 1)) with (length (starts w))
        by lia.
    + split_and!; [lia|done|tauto].
  - unfold taskSettles in He.
    destruct (drain w) as [| |p fn] eqn:Edr; try done.
    injection He as <-.
    destruct Hw as [Hs Hq Hl Hp Hd]. rewrite Edr in Hd.
    destruct Hd as (Hsp & Hfn & Hpr).
    apply lookup_lt_Some in Hfn as Hlt.
    eapply OutcomeInv_process; simpl; rewrite ?length_insert;
      try done.
    intros i fn' Hi. unfold finished in Hp. rewrite Edr in Hp.
    destruct (decide (i = p)) as [->|Hne].
    + rewrite list_lookup_insert_eq by lia.
      rewrite bool_decide_eq_true_2 by lia. congruence.
    + rewrite list_lookup_insert_ne by done. rewrite (Hp i fn' Hi).
      by rewrite (bool_decide_ext (i < pred (length (starts w)))%nat
                   (i < S p)%nat) by lia.
Qed.

Lemma OutcomeInv_run es : forall tasks w w',
  OutcomeInv tasks w -> run w es = Some w' ->
  OutcomeInv (tasks ++ submitted es) w'.
Proof.
  induction es as [|e es IH]; intros tasks w w' Hw Hr; simpl in Hr.
  - injection Hr as <-. simpl. by rewrite app_nil_r.
  - destruct (step w e) as [w1|] eqn:E1; [|done].
    destruct e as [fn|dt| |]; simpl submitted.
    + rewrite cons_middle, app_assoc. eapply IH; [|exact Hr].
      simpl in E1. injection E1 as <-. by apply OutcomeInv_add.
    + eapply IH; [|exact Hr].
      eapply OutcomeInv_step_other; [exact Hw| |exact E1]; done.
    + eapply IH; [|exact Hr].
      eapply OutcomeInv_step_other; [exact Hw| |exact E1]; done.
    + eapply IH; [|exact Hr].
      eapply OutcomeInv_step_other; [exact Hw| |exact E1]; done.
Qed.

Lemma run_app es1 es2 w :
  run w (es1 ++ es2) =
    match run w es1 with Some w1 => run w1 es2 | None => None end.
Proof.
  revert w. induction es1 as [|e es1 IH]; intros w; simpl; [done|].
  destruct (step w e); [apply IH|done].
Qed.

(** From a pending timer: let it come due, fire it, let the task that
    starts run to its end.  The queue is one shorter and the limiter is
    idle or waits for the next task. *)
Lemma sleeping_progress tasks w due :
  OutcomeInv tasks w -> drain w = Sleeping due ->
  exists w1,
    run w [Elapse (Math_max 0 (due - now w)); TimerFires; TaskSettles]
      = Some w1 /\
    OutcomeInv tasks w1 /\
    (length (queue w1) < length (queue w))%nat /\
    (forall p fn, drain w1 <> Running p fn).
Proof.
  intros Hw Edr.
  assert (Hq : queue w <> []).
  { destruct Hw as [_ _ _ _ Hd]. rewrite Edr in Hd. tauto. }
  pose proof (Math_max_l 0 (due - now w)) as H0.
  pose proof (Math_max_r 0 (due - now w)) as H1.
  set (d := Math_max 0 (due - now w)) in *.
  assert (Qle_bool 0 d = true) as Hd0 by by apply Qle_bool_iff.
  assert (Qle_bool due (now w + d) = true) as Hdue
    by (apply Qle_bool_iff; lra).
  assert (exists w1,
    run w [Elapse d; TimerFires; TaskSettles] = Some w1 /\
    (length (queue w1) < length (queue w))%nat /\
    (forall p fn, drain w1 <> Running p fn)) as (w1 & Hr & Hlen & Hnr).
  { destruct (queue w) as [|[p fn] rest] eqn:Eq; [done|].
    eexists. split.
    - simpl. unfold elapse. rewrite Hd0. simpl.
      unfold timerFires. simpl. rewrite Edr, Hdue, Eq. reflexivity.
    - unfold process. simpl. split; [destruct rest; simpl; lia|].
      by destruct rest. }
  exists w1. split_and!; try done.
  pose proof (OutcomeInv_run _ _ _ _ Hw Hr) as H. simpl in H.
  by rewrite app_nil_r in H.
Qed.

Definition noAdd es : bool := forallb (fun e => negb (isAdd e)) es.

Lemma noAdd_app es1 es2 :
  noAdd es1 = true -> noAdd es2 = true -> noAdd (es1 ++ es2) = true.
Proof. unfold noAdd. rewrite forallb_app. by intros -> ->. Qed.

Lemma drains_when_not_running tasks : forall n w,
  OutcomeInv tasks w -> (length (queue w) <= n)%nat ->
  (forall p fn, drain w <> Running p fn) ->
  exists sched w',
    noAdd sched = true /\ run w sched = Some w' /\
    OutcomeInv tasks w' /\ drain w' = Idle.
Proof.
  induction n as [|n IH]; intros w Hw Hn Hnr;
    (destruct (drain w) as [|due|p fn] eqn:Edr;
     [by exists [], w| |by destruct (Hnr p fn)]).
  - destruct Hw as [_ _ _ _ Hd]. rewrite Edr in Hd.
    destruct (queue w); [tauto|simpl in Hn; lia].
  - destruct (sleeping_progress tasks w due Hw Edr)
      as (w1 & Hr1 & Hw1 & Hlen & Hnr1).
    destruct (IH w1 Hw1 ltac:(lia) Hnr1) as (sched & w' & Hs & Hr & Hw' & Hi).
    exists ([Elapse (Math_max 0 (due - now w)); TimerFires; TaskSettles]
              ++ sched), w'.
    split_and!;
      [by apply noAdd_app|by rewrite run_app, Hr1|done|done].
Qed.

(** The limiter never stalls: without further submissions, the events
    of the drain alone lead to the idle state. *)
Lemma drains_to_idle tasks w :
  OutcomeInv tasks w ->
  exists sched w',
    noAdd sched = true /\ run w sched = Some w' /\
    OutcomeInv tasks w' /\ drain w' = Idle.
Proof.
  intros Hw. destruct (drain w) as [|due|p fn] eqn:Edr.
  - eapply drains_when_not_running; [done..|]. intros ??. by rewrite Edr.
  - eapply drains_when_not_running; [done..|]. intros ??. by rewrite Edr.
  - destruct (taskSettles w) as [w1|] eqn:E1.
    2:{ unfold taskSettles in E1. by rewrite Edr in E1. }
    assert (Hw1 : OutcomeInv tasks w1).
    { eapply (OutcomeInv_step_other tasks w TaskSettles); done. }
    assert (forall p fn, drain w1 <> Running p fn) as Hnr.
    { unfold taskSettles in E1. rewrite Edr in E1. injection E1 as <-.
      unfold process. simpl. by destruct (queue w). }
    destruct (drains_when_not_running tasks _ w1 Hw1 (le_n _) Hnr)
      as (sched & w' & Hs & Hr & Hw' & Hi).
    exists (TaskSettles :: sched), w'. split_and!; try done.
    simpl. by rewrite E1.
Qed.

Lemma idle_all_settled tasks w :
  OutcomeInv tasks w -> drain w = Idle ->
  promises w = settleWith <$> tasks.
Proof.
  intros [Hs Hq Hl Hp Hd] Edr. rewrite Edr in Hd. destruct Hd as [Hq0 _].
  assert (length tasks <= length (starts w))%nat as Hall.
  { rewrite Hq0 in Hq. symmetry in Hq. apply drop_nil_inv in Hq.
    revert Hq. unfold tickets. rewrite length_imap. done. }
  apply list_eq. intros i. rewrite list_lookup_fmap.
  destruct (tasks !! i) as [fn|] eqn:Ei; simpl.
  - rewrite (Hp i fn Ei). apply lookup_lt_Some in Ei.
    unfold finished. rewrite Edr. by rewrite bool_decide_eq_true_2 by lia.
  - apply lookup_ge_None in Ei. apply lookup_ge_None. lia.
Qed.

(** C1 (as amended).  Whatever the calls of [add], the passage of time
    and the firing of the timer, the tasks start in the order of their
    submission: the [k]-th start is that of the [k]-th ticket, and the
    task that runs is the one submitted under the ticket started last.
    On a clock of whole milliseconds and for an interval
    [1000 / requestsPerSecond] within the range of the timers, two
    consecutive starts are at least the whole part of the interval apart:
    the interval itself when it is a whole number of milliseconds. *)
Theorem rate_limiter_fifo_and_spacing
    (requestsPerSecond t0 : Q) es w :
  0 < requestsPerSecond ->
  run (create requestsPerSecond t0) es = Some w ->
  (starts w).*1 = seq 0 (length (starts w)) /\
  (forall p fn,
     drain w = Running p fn ->
     S p = length (starts w) /\ submitted es !! p = Some fn) /\
  (1000 / requestsPerSecond <= TIMEOUT_MAX ->
   0 <= t0 -> whole t0 = true -> wholeSteps es = true ->
   spaced (inject_Z (Qfloor (1000 / requestsPerSecond))) (starts w).*2 /\
   (whole (1000 / requestsPerSecond) = true ->
    spaced (1000 / requestsPerSecond) (starts w).*2)).
Proof.
  intros _ Hrun.
  destruct (OrderInv_run _ es _ _ (OrderInv_create requestsPerSecond t0) Hrun)
    as [_ Hfifo _ _ _].
  pose proof (OutcomeInv_run es [] _ _
                (OutcomeInv_create requestsPerSecond t0) Hrun) as Hw.
  simpl in Hw. split_and!; [exact Hfifo| |].
  - intros p fn Hrunning. pose proof (ui_drain _ _ Hw) as Hd.
    rewrite Hrunning in Hd. tauto.
  - intros Hmax H0 Ht0 Hes.
    destruct (PaceInv_run _ es _ _ Hmax
                (PaceInv_create requestsPerSecond t0 H0 Ht0) Hes Hrun)
      as [_ _ _ _ Hspaced _ _].
    split; [exact Hspaced|]. intros Hd.
    eapply spaced_le; [|exact Hspaced].
    apply whole_spec in Hd. apply Qle_lteq. by right.
Qed.

(** C9.  A promise returned by [add] is pending or settled with the
    outcome of the task it was returned for: resolved with its result,
    rejected with its error.  And whatever the outcomes so far, the
    drain goes on: without any further submission every submitted task
    is run and every promise is settled with its own task's outcome. *)
Theorem add_settles_with_own_outcome (requestsPerSecond t0 : Q) es w :
  run (create requestsPerSecond t0) es = Some w ->
  (forall p fn, submitted es !! p = Some fn ->
     promises w !! p = Some Pending \/
     promises w !! p = Some (settleWith fn)) /\
  exists sched w',
    noAdd sched = true /\ run w sched = Some w' /\
    promises w' = settleWith <$> submitted es.
Proof.
  intros Hrun.
  pose proof (OutcomeInv_run es [] _ _
                (OutcomeInv_create requestsPerSecond t0) Hrun) as Hw.
  simpl in Hw. split.
  - intros p fn Hp. rewrite (ui_promises _ _ Hw p fn Hp).
    destruct (bool_decide _); auto.
  - destruct (drains_to_idle _ _ Hw) as (sched & w' & Hs & Hr & Hw' & Hi).
    exists sched, w'. split_and!; try done.
    by apply idle_all_settled.
Qed.

End RateLimiterOutcomes.

(** ** Retry wrapper *)

Section RetryPolicy.

Import Retry.
Local Open Scope list_scope.

Context {R : Type}.
Implicit Types (get : nat -> Completion Error R) (url : string).

(** [retries] rounds of request and back-off, and the last request. *)
Fixpoint backoffs (url : string) (retries : nat) : list Effect :=
  match retries with
  | O => [Get url]
  | S r => Get url :: Delay 2000 :: backoffs url r
  end.

Lemma fetchWithRetry_unfold get url attempt retries :
  fetchWithRetry get url attempt retries =
    match get attempt with
    | Normal response => ([Get url], Normal response)
    | Throw error =>
        match retries with
        | S retries' =>
            if tooManyRequests error then
              (Get url :: Delay 2000 ::
                 (fetchWithRetry get url (S attempt) retries').1,
               (fetchWithRetry get url (S attempt) retries').2)
            else ([Get url], Throw error)
        | O => ([Get url], Throw error)
        end
    end.
Proof.
  destruct retries as [|r]; simpl; [done|].
  destruct (get attempt) as [|error]; [done|].
  destruct (tooManyRequests error); [|done].
  by destruct (fetchWithRetry get url (S attempt) r).
Qed.

(** While every call is answered 429, the whole budget is spent and the
    error of the last call is thrown. *)
Lemma fetchWithRetry_exhausted get url : forall retries attempt,
  (forall k, k <= retries ->
     exists error, get (attempt + k) = Throw error /\
                   tooManyRequests error = true) ->
  exists error,
    get (attempt + retries) = Throw error /\
    fetchWithRetry get url attempt retries =
      (backoffs url retries, Throw error).
Proof.
  induction retries as [|r IH]; intros attempt H.
  - destruct (H 0) as (error & He & _); [lia|].
    exists error. rewrite Nat.add_0_r in *. split; [done|].
    simpl. by rewrite He.
  - destruct (H 0) as (e0 & He0 & H429); [lia|].
    rewrite Nat.add_0_r in He0.
    destruct (IH (S attempt)) as (error & He & Hf).
    { intros k Hk. destruct (H (S k)) as (e & ? & ?); [lia|].
      exists e. by replace (S attempt + k) with (attempt + S k) by lia. }
    exists error. replace (attempt + S r) with (S attempt + r) by lia.
    split; [done|].
    rewrite fetchWithRetry_unfold, He0, H429, Hf. done.
Qed.

(** At most [retries + 1] requests are made. *)
Lemma fetchWithRetry_bounded get url : forall retries attempt,
  gets (fetchWithRetry get url attempt retries).1 <= S retries.
Proof.
  induction retries as [|r IH]; intros attempt;
    rewrite fetchWithRetry_unfold; destruct (get attempt) as [|error];
    simpl; try lia.
  destruct (tooManyRequests error); simpl; [|lia].
  specialize (IH (S attempt)). lia.
Qed.

(** C3.  When the call fails: with a 429 and attempts left, the call is
    issued again after a delay of 2000 ms, with one attempt fewer; with
    any other failure the error is thrown at once, after the one request;
    with no attempt left the error is thrown as it is.  And when every
    call of the budget fails with a 429, what the caller gets is the
    error of the last call, unchanged. *)
Theorem fetchWithRetry_retries_only_on_429 get url attempt retries error :
  get attempt = Throw error ->
  (tooManyRequests error = true -> forall r, retries = S r ->
     fetchWithRetry get url attempt retries =
       (Get url :: Delay 2000 :: (fetchWithRetry get url (S attempt) r).1,
        (fetchWithRetry get url (S attempt) r).2)) /\
  (tooManyRequests error = false ->
     fetchWithRetry get url attempt retries = ([Get url], Throw error)) /\
  (retries = 0 ->
     fetchWithRetry get url attempt retries = ([Get url], Throw error)) /\
  ((forall k, k <= retries ->
      exists e, get (attempt + k) = Throw e /\ tooManyRequests e = true) ->
   exists last,
     get (attempt + retries) = Throw last /\
     fetchWithRetry get url attempt retries =
       (backoffs url retries, Throw last)).
Proof.
  intros He. split_and!.
  - intros H429 r ->. by rewrite fetchWithRetry_unfold, He, H429.
  - intros Hn. rewrite fetchWithRetry_unfold, He, Hn. by destruct retries.
  - intros ->. by rewrite fetchWithRetry_unfold, He.
  - apply fetchWithRetry_exhausted.
Qed.

End RetryPolicy.

(** ** Worked runs of the limiter and of the retry wrapper *)

Section WorkedRuns.

Import RateLimiter Retry.
Local Open Scope list_scope.

Definition throttled : Error :=
  {| isAxiosError := true; Js.status := Some 429; instanceofError := true;
     message := "Request failed with status code 429" |}.

Definition notFound : Error :=
  {| isAxiosError := true; Js.status := Some 404; instanceofError := true;
     message := "Request failed with status code 404" |}.

(** Three tasks, the second of which fails; the first two are submitted
    together, the third while the first runs.  One request per second,
    the clock starts at 5000 ms. *)
Definition threeTasks : list (Event nat) :=
  [ Add (Normal 10); Add (Throw notFound); Elapse 1; TimerFires;
    Add (Normal 30); Elapse 120; TaskSettles;
    Elapse 880; TimerFires; TaskSettles ].

Lemma rate_limiter_fifo_and_spacing_witness :
  exists w,
    run (create 1 5000) threeTasks = Some w /\
    (starts w).*1 = seq 0 (length (starts w)) /\
    (forall p fn,
       drain w = Running p fn ->
       S p = length (starts w) /\ submitted threeTasks !! p = Some fn) /\
    spaced (inject_Z (Qfloor (1000 / 1))) (starts w).*2 /\
    spaced (1000 / 1) (starts w).*2.
Proof.
  destruct (run (create 1 5000) threeTasks) as [w|] eqn:E.
  - exists w. split; [reflexivity|].
    destruct (rate_limiter_fifo_and_spacing 1%Q 5000%Q threeTasks w
                eq_refl E) as (Hfifo & Hrunning & Hspaced).
    destruct Hspaced as [Hfloor Hwhole];
      [discriminate|discriminate|reflexivity|reflexivity|].
    split_and!; [exact Hfifo|exact Hrunning|exact Hfloor|].
    apply Hwhole. reflexivity.
  - vm_compute in E. discriminate E.
Defined.

(** Three requests per second, two tasks submitted together at 5000 ms:
    the first starts when the timer of one millisecond is due; after it
    the limiter asks for 333.33 ms, the timer is armed with 333. *)
Definition twoAtThreePerSecond : list (Event nat) :=
  [ Add (Normal 10); Add (Normal 20); Elapse 1; TimerFires; TaskSettles;
    Elapse 333; TimerFires ].

(** Against C1 as the specification words it: at three requests per
    second the two starts are 333 ms apart, less than [1000 / 3]. *)
Lemma starts_closer_than_the_interval :
  exists w,
    (0 < 3)%Q /\
    run (create 3 5000) twoAtThreePerSecond = Some w /\
    (starts w).*1 = [0; 1]%nat /\
    (starts w).*2 = [5001; 5334]%Q /\
    ~ spaced (1000 / 3) (starts w).*2.
Proof.
  eexists. split; [reflexivity|]. split; [vm_compute; reflexivity|].
  split; [reflexivity|]. split; [reflexivity|].
  simpl. intros [H _]. revert H. vm_compute. intros H. by apply H.
Qed.

Lemma add_settles_with_own_outcome_witness :
  exists w,
    run (create 1 5000) threeTasks = Some w /\
    promises w = [Resolved 10; Rejected notFound; Pending] /\
    exists sched w',
      noAdd sched = true /\ run w sched = Some w' /\
      promises w' = [Resolved 10; Rejected notFound; Resolved 30].
Proof.
  destruct (run (create 1 5000) threeTasks) as [w|] eqn:E.
  - exists w. split; [reflexivity|]. split.
    + vm_compute in E. injection E as <-. reflexivity.
    + exact (proj2 (add_settles_with_own_outcome 1%Q 5000%Q threeTasks w E)).
  - vm_compute in E. discriminate E.
Defined.

(** Two 429 answers, then a 404. *)
Definition flaky (k : nat) : Completion Error string :=
  match k with
  | 0 | 1 => Throw throttled
  | _ => Throw notFound
  end.

Lemma fetchWithRetry_retries_only_on_429_witness :
  fetchWithRetry flaky "u" 0 MAX_RETRIES =
    ([Get "u"; Delay 2000; Get "u"; Delay 2000; Get "u"], Throw notFound).
Proof.
  unfold MAX_RETRIES.
  pose proof (fetchWithRetry_retries_only_on_429 flaky "u" 0 3 throttled
                eq_refl) as (Hretry & _).
  rewrite (Hretry eq_refl 2 eq_refl).
  pose proof (fetchWithRetry_retries_only_on_429 flaky "u" 1 2 throttled
                eq_refl) as (Hretry' & _).
  rewrite (Hretry' eq_refl 1 eq_refl).
  pose proof (fetchWithRetry_retries_only_on_429 flaky "u" 2 1 notFound
                eq_refl) as (_ & Hother & _).
  rewrite (Hother eq_refl). reflexivity.
Defined.

End WorkedRuns.

(** ** Scrapers: deduplication within a scraper *)

Section Deduplication.

Import Scraper.
Local Open Scope list_scope.

Implicit Types (env : Env) (batch : string) (l : list Startup)
  (seen : gset string) (lower : string -> string).

(** The key under which a record is remembered in [processedNames]:
    its name in lower case, by the [toLowerCase] of the platform. *)
Definition nameKey lower (s : Startup) : string :=
  lower (default EmptyString (name s)).

(** No two records of [l] share a key, and [seen] holds all their keys. *)
Definition Deduped lower l seen : Prop :=
  NoDup (nameKey lower <$> l) /\
  forall s, s ∈ l -> nameKey lower s ∈ seen.

Lemma Deduped_empty lower : Deduped lower [] ∅.
Proof. split; [constructor|]. intros s Hs. by apply elem_of_nil in Hs. Qed.

Lemma Deduped_push lower l seen s :
  Deduped lower l seen -> nameKey lower s ∉ seen ->
  Deduped lower (l ++ [s]) ({[ nameKey lower s ]} ∪ seen).
Proof.
  intros [Hnd Hin] Hs. split.
  - rewrite fmap_app. simpl. apply NoDup_app. split_and!; [done| |].
    + intros k Hk Hk'. apply list_elem_of_singleton in Hk' as ->.
      apply list_elem_of_fmap in Hk as (s' & Heq & Hs').
      apply Hs. rewrite Heq. by apply Hin.
    + apply NoDup_singleton.
  - intros s' Hs'. apply elem_of_app in Hs' as [Hs'|Hs'].
    + apply elem_of_union_r. by apply Hin.
    + apply list_elem_of_singleton in Hs' as ->. set_solver.
Qed.

Definition DedupedA16z env (st : A16z.State) : Prop :=
  Deduped (toLowerCase env) (A16z.startups st) (A16z.processedNames st).

Definition DedupedYC env (st : YC.State) : Prop :=
  Deduped (toLowerCase env) (YC.startups st) (YC.processedNames st).

Lemma a16zItem_deduped env st item :
  DedupedA16z env st -> DedupedA16z env (a16zItem env st item).
Proof.
  intros Hst. unfold a16zItem.
  destruct (truthy (extractName item)); [|done].
  set (n := trim (replaceNoise (extractName item))).
  simpl. case_bool_decide as Hseen; [done|].
  destruct (linkedIn env n) as [url|]; [|done].
  destruct (validateCompany _); [|done].
  exact (Deduped_push _ _ _
           {| name := Some n; website := Some "not found"%string;
              linkedin_url := Some url; source := Some "a16z"%string |}
           Hst Hseen).
Qed.

Lemma a16zItems_deduped env items : forall st,
  DedupedA16z env st -> DedupedA16z env (foldl (a16zItem env) st items).
Proof.
  induction items as [|item items IH]; intros st Hst; simpl; [done|].
  by apply IH, a16zItem_deduped.
Qed.

Lemma selectorLoop_deduped env doc sels : forall st,
  DedupedA16z env st -> DedupedA16z env (selectorLoop env doc sels st).
Proof.
  induction sels as [|sel sels IH]; intros st Hst; simpl; [done|].
  destruct (0 <? length (doc sel))%nat.
  - match goal with |- context [foldl ?f ?s ?i] =>
      assert (DedupedA16z env (foldl f s i)) as H
        by (by apply a16zItems_deduped) end.
    destruct (0 <? length _)%nat; [done|]. by apply IH.
  - by apply IH.
Qed.

Lemma urlLoop_deduped env us sels : forall st,
  DedupedA16z env st -> DedupedA16z env (urlLoop env us sels st).
Proof.
  induction us as [|url us IH]; intros st Hst; simpl; [done|].
  destruct (portfolio env url) as [doc|]; [|by apply IH].
  pose proof (selectorLoop_deduped env doc sels st Hst) as H.
  destruct (0 <? length _)%nat; [done|]. by apply IH.
Qed.

Lemma ycCompany_deduped env batch st c :
  DedupedYC env st -> DedupedYC env (ycCompany env batch st c).
Proof.
  intros Hst. unfold ycCompany.
  destruct (company_name c) as [cname|]; [|done].
  destruct (truthy cname); simpl; [|done].
  case_bool_decide as Hseen; simpl; [done|].
  destruct (linkedIn env cname) as [url|]; [|done].
  destruct (validateCompany _); [|done].
  exact (Deduped_push _ _ _
           {| name := Some cname;
              website := Some (orElse (company_website c) "not found");
              linkedin_url := Some (orElse (Some url) "not found");
              source := Some ("YC " ++ batch)%string |}
           Hst Hseen).
Qed.

Lemma ycCompanies_deduped env batch cs : forall st,
  DedupedYC env st -> DedupedYC env (foldl (ycCompany env batch) st cs).
Proof.
  induction cs as [|c cs IH]; intros st Hst; simpl; [done|].
  by apply IH, ycCompany_deduped.
Qed.

(** The companies the loop goes through: those listed before the first
    entry on which the condition of the loop throws. *)
Fixpoint reached (entries : list Entry) : list Company :=
  match entries with
  | Listing company :: rest => company :: reached rest
  | _ => []
  end.

(** Some entry makes the condition of the loop throw. *)
Fixpoint raises (entries : list Entry) : bool :=
  match entries with
  | [] => false
  | Listing _ :: rest => raises rest
  | _ :: _ => true
  end.

Definition loopState (e : LoopEnd) : YC.State :=
  match e with Finished st => st | Raised st => st end.

Lemma ycCompanies_reached env batch entries : forall st,
  ycCompanies env batch st entries =
    (if raises entries then Raised else Finished)
      (foldl (ycCompany env batch) st (reached entries)).
Proof.
  induction entries as [|[| |c] entries IH]; intros st; simpl; auto.
Qed.


Lemma ycPage_deduped env batch st :
  DedupedYC env st -> DedupedYC env (ycPage env batch st).
Proof.
  intros Hst. unfold ycPage.
  destruct (directory env batch _ _) as [[|data]|]; [done| |done].
  destruct (companies data) as [|[|e entries]|]; try done.
  rewrite ycCompanies_reached.
  pose proof (ycCompanies_deduped env batch (reached (e :: entries)) st Hst).
  by destruct (raises _).
Qed.

Lemma ycLoop_deduped env batch fuel : forall st st',
  DedupedYC env st -> ycLoop fuel env batch st = Some st' -> DedupedYC env st'.
Proof.
  induction fuel as [|fuel IH]; intros st st' Hst; simpl;
    destruct (ycContinue st); try done; try by intros [= <-].
  apply IH. by apply ycPage_deduped.
Qed.

Lemma batchLoop_deduped env fuel batches : forall st st',
  DedupedYC env st -> batchLoop fuel env batches st = Some st' -> DedupedYC env st'.
Proof.
  induction batches as [|batch batches IH]; intros st st' Hst; simpl.
  - by intros [= <-].
  - destruct (ycLoop fuel env batch (ycCohort st)) as [st1|] eqn:E; [|done].
    apply IH. eapply ycLoop_deduped; [|exact E]. exact Hst.
Qed.

End Deduplication.

(** ** Scrapers: the first occurrence of a name is the one kept *)

Section FirstOccurrence.

Import Scraper.
Local Open Scope list_scope.

Implicit Types (env : Env) (batch : string) (l : list Startup)
  (seen : gset string) (lower : string -> string).

(** Of the records of [l], in order, those whose key is neither in [seen]
    nor the key of an earlier record of [l]. *)
Fixpoint keepFirst lower seen l : list Startup :=
  match l with
  | [] => []
  | s :: rest =>
      if bool_decide (nameKey lower s ∈ seen) then keepFirst lower seen rest
      else s :: keepFirst lower ({[ nameKey lower s ]} ∪ seen) rest
  end.

(** The valid records of [l], the first of each name only. *)
Definition validUnique lower l : list Startup :=
  keepFirst lower ∅ (List.filter validateCompany l).

(** The record that the directory scraper builds for a company: none when
    the name is missing or empty, or when the look-up throws. *)
Definition ycCandidate env batch (c : Company) : option Startup :=
  match company_name c with
  | Some cname =>
      if truthy cname then
        match linkedIn env cname with
        | Normal url =>
            Some {| name := Some cname;
                    website :=
                      Some (orElse (company_website c) "not found");
                    linkedin_url := Some (orElse (Some url) "not found");
                    source := Some ("YC " ++ batch)%string |}
        | Throw _ => None
        end
      else None
  | None => None
  end.

(** The record that the portfolio scraper builds for an element. *)
Definition a16zCandidate env (item : Element) : option Startup :=
  if truthy (extractName item) then
    let name1 := trim (replaceNoise (extractName item)) in
    match linkedIn env name1 with
    | Normal url =>
        Some {| name := Some name1; website := Some "not found"%string;
                linkedin_url := Some url; source := Some "a16z"%string |}
    | Throw _ => None
    end
  else None.

Lemma ycCompany_keepFirst env batch st c :
  YC.startups (ycCompany env batch st c) =
    YC.startups st ++
    keepFirst (toLowerCase env) (YC.processedNames st)
      (List.filter validateCompany (option_list (ycCandidate env batch c))) /\
  YC.processedNames (ycCompany env batch st c) =
    list_to_set
      (nameKey (toLowerCase env) <$>
         keepFirst (toLowerCase env) (YC.processedNames st)
           (List.filter validateCompany
              (option_list (ycCandidate env batch c))))
    ∪ YC.processedNames st.
Proof.
  unfold ycCompany, ycCandidate.
  destruct (company_name c) as [cname|]; simpl;
    [|rewrite app_nil_r; split; [done|set_solver]].
  destruct (truthy cname); simpl;
    [|rewrite app_nil_r; split; [done|set_solver]].
  destruct (linkedIn env cname) as [url|]; simpl.
  - destruct (validateCompany _) eqn:Ev; simpl; unfold nameKey; simpl;
      destruct (bool_decide (toLowerCase env cname ∈ YC.processedNames st));
      simpl; rewrite ?app_nil_r; (split; [done|set_solver]).
  - destruct (bool_decide (toLowerCase env cname ∈ YC.processedNames st));
      simpl; rewrite app_nil_r; (split; [done|set_solver]).
Qed.

Lemma keepFirst_app lower seen l1 l2 :
  keepFirst lower seen (l1 ++ l2) =
    keepFirst lower seen l1 ++
    keepFirst lower
      (list_to_set (nameKey lower <$> keepFirst lower seen l1) ∪ seen) l2.
Proof.
  revert seen. induction l1 as [|s l1 IH]; intros seen; simpl.
  - f_equal. set_solver.
  - destruct (bool_decide (nameKey lower s ∈ seen)); simpl; [apply IH|].
    rewrite IH. simpl.
    assert (forall A B C : gset string, A ∪ (B ∪ C) = B ∪ A ∪ C) as Hset
      by set_solver.
    by rewrite Hset.
Qed.

(** The company loop of the directory scraper adds to the results the
    valid candidates of the page, the first of each name not yet seen. *)
Lemma ycCompanies_keepFirst env batch cs : forall st,
  YC.startups (foldl (ycCompany env batch) st cs) =
    YC.startups st ++
    keepFirst (toLowerCase env) (YC.processedNames st)
      (List.filter validateCompany (omap (ycCandidate env batch) cs)) /\
  YC.processedNames (foldl (ycCompany env batch) st cs) =
    list_to_set
      (nameKey (toLowerCase env) <$>
         keepFirst (toLowerCase env) (YC.processedNames st)
           (List.filter validateCompany (omap (ycCandidate env batch) cs)))
    ∪ YC.processedNames st.
Proof.
  induction cs as [|c cs IH]; intros st.
  - simpl. rewrite app_nil_r. split; [done|set_solver].
  - change (foldl (ycCompany env batch) st (c :: cs))
      with (foldl (ycCompany env batch) (ycCompany env batch st c) cs).
    destruct (IH (ycCompany env batch st c)) as [IH1 IH2].
    destruct (ycCompany_keepFirst env batch st c) as [H1 H2].
    assert (List.filter validateCompany
              (omap (ycCandidate env batch) (c :: cs)) =
            List.filter validateCompany
              (option_list (ycCandidate env batch c)) ++
            List.filter validateCompany (omap (ycCandidate env batch) cs))
      as ->.
    { simpl. destruct (ycCandidate env batch c); simpl; [|done].
      by destruct (validateCompany _). }
    rewrite keepFirst_app, IH1, IH2, H1, H2, fmap_app, list_to_set_app_L.
    rewrite <- app_assoc. split; [done|]. set_solver.
Qed.


Lemma a16zItem_keepFirst env st item :
  A16z.startups (a16zItem env st item) =
    A16z.startups st ++
    keepFirst (toLowerCase env) (A16z.processedNames st)
      (List.filter validateCompany (option_list (a16zCandidate env item))) /\
  A16z.processedNames (a16zItem env st item) =
    list_to_set
      (nameKey (toLowerCase env) <$>
         keepFirst (toLowerCase env) (A16z.processedNames st)
           (List.filter validateCompany
              (option_list (a16zCandidate env item))))
    ∪ A16z.processedNames st.
Proof.
  unfold a16zItem, a16zCandidate.
  destruct (truthy (extractName item)); simpl;
    [|rewrite app_nil_r; split; [done|set_solver]].
  set (n := trim (replaceNoise (extractName item))).
  destruct (linkedIn env n) as [url|]; simpl.
  - destruct (validateCompany _) eqn:Ev; simpl; unfold nameKey; simpl;
      destruct (bool_decide (toLowerCase env n ∈ A16z.processedNames st));
      simpl; rewrite ?app_nil_r; (split; [done|set_solver]).
  - destruct (bool_decide (toLowerCase env n ∈ A16z.processedNames st));
      simpl; rewrite app_nil_r; (split; [done|set_solver]).
Qed.

(** The item loop of the portfolio scraper adds to the results the valid
    candidates among the elements, the first of each name not yet seen. *)
Lemma a16zItems_keepFirst env items : forall st,
  A16z.startups (foldl (a16zItem env) st items) =
    A16z.startups st ++
    keepFirst (toLowerCase env) (A16z.processedNames st)
      (List.filter validateCompany (omap (a16zCandidate env) items)) /\
  A16z.processedNames (foldl (a16zItem env) st items) =
    list_to_set
      (nameKey (toLowerCase env) <$>
         keepFirst (toLowerCase env) (A16z.processedNames st)
           (List.filter validateCompany (omap (a16zCandidate env) items)))
    ∪ A16z.processedNames st.
Proof.
  induction items as [|item items IH]; intros st.
  - simpl. rewrite app_nil_r. split; [done|set_solver].
  - change (foldl (a16zItem env) st (item :: items))
      with (foldl (a16zItem env) (a16zItem env st item) items).
    destruct (IH (a16zItem env st item)) as [IH1 IH2].
    destruct (a16zItem_keepFirst env st item) as [H1 H2].
    assert (List.filter validateCompany
              (omap (a16zCandidate env) (item :: items)) =
            List.filter validateCompany
              (option_list (a16zCandidate env item)) ++
            List.filter validateCompany (omap (a16zCandidate env) items))
      as ->.
    { simpl. destruct (a16zCandidate env item); simpl; [|done].
      by destruct (validateCompany _). }
    rewrite keepFirst_app, IH1, IH2, H1, H2, fmap_app, list_to_set_app_L.
    rewrite <- app_assoc. split; [done|]. set_solver.
Qed.

Lemma a16zItems_log env items : forall st,
  A16z.tried (foldl (a16zItem env) st items) = A16z.tried st /\
  A16z.processed (foldl (a16zItem env) st items) =
    A16z.processed st ++ items.
Proof.
  induction items as [|item items IH]; intros st; simpl.
  - by rewrite app_nil_r.
  - destruct (IH (a16zItem env st item)) as [-> ->].
    rewrite cons_middle, app_assoc.
    unfold a16zItem. destruct (truthy _); [|done]. simpl.
    destruct (bool_decide _); [done|].
    destruct (linkedIn env _); [|done].
    by destruct (validateCompany _).
Qed.

End FirstOccurrence.

(** ** Scrapers: what is unique, and where *)

Section PerScraperUniqueness.

Import Scraper.
Local Open Scope list_scope.

(** C2 (as amended).  Each scraper keeps its own set of seen names: in the
    list a scraper returns no two records have the same name in lower
    case, and of the valid candidates that its item loop goes through, the
    first of each name not seen before is the one kept. *)
Theorem names_unique_within_each_scraper (env : Env) :
  (forall l,
     scrapeA16z env = Normal l -> NoDup (nameKey (toLowerCase env) <$> l)) /\
  (forall fuel l,
     scrapeYCombinator fuel env = Some (Normal l) ->
     NoDup (nameKey (toLowerCase env) <$> l)) /\
  (forall items st,
     A16z.startups (foldl (a16zItem env) st items) =
       A16z.startups st ++
       keepFirst (toLowerCase env) (A16z.processedNames st)
         (List.filter validateCompany (omap (a16zCandidate env) items))) /\
  (forall batch entries st,
     YC.startups (loopState (ycCompanies env batch st entries)) =
       YC.startups st ++
       keepFirst (toLowerCase env) (YC.processedNames st)
         (List.filter validateCompany
            (omap (ycCandidate env batch) (reached entries)))).
Proof.
  split_and!.
  - intros l [= <-].
    apply (urlLoop_deduped env urls selectors A16z.init (Deduped_empty _)).
  - intros fuel l. unfold scrapeYCombinator.
    destruct (batchLoop fuel env YC_BATCHES ycInit) as [st|] eqn:E; [|done].
    intros [= <-].
    apply (batchLoop_deduped env fuel YC_BATCHES ycInit st
             (Deduped_empty _) E).
  - intros items st. apply a16zItems_keepFirst.
  - intros batch entries st. rewrite ycCompanies_reached.
    rewrite <- (proj1 (ycCompanies_keepFirst env batch (reached entries) st)).
    by destruct (raises entries).
Qed.

Definition titled (title : string) : Element :=
  {| data_name := Some title; builder_title := EmptyString;
     heading := EmptyString |}.

Definition listing (cname : string) : Entry :=
  Listing {| company_name := Some cname; company_website := None |}.

(** A company that both sources list, under names that differ in case
    only. *)
Definition acmePage : Document :=
  fun selector =>
    if String.eqb selector ".company-grid-item" then [titled "Acme"]
    else [].

Definition bothListAcme : Env :=
  {| toLowerCase := asciiLowerCase;
     portfolio := fun _ => Normal acmePage;
     linkedIn := fun _ => Normal EmptyString;
     directory := fun _ _ _ =>
       Normal (Data {| companies := Entries [listing "ACME"];
                       next := false; nextPage := false |}) |}.

Definition acmeA16z : Startup :=
  {| name := Some "Acme"; website := Some "not found";
     linkedin_url := Some EmptyString; source := Some "a16z" |}.

Definition acmeYC : Startup :=
  {| name := Some "ACME"; website := Some "not found";
     linkedin_url := Some "not found"; source := Some "YC W24" |}.

Lemma bothListAcme_scraped :
  scrapeStartups 1 bothListAcme = Some (Normal [acmeA16z; acmeYC]).
Proof. vm_compute. reflexivity. Qed.

(** C2 as stated fails: the concatenation holds the name once per
    scraper. *)
Lemma scrapeStartups_repeats_a_name :
  scrapeStartups 1 bothListAcme = Some (Normal [acmeA16z; acmeYC]) /\
  nameKey (toLowerCase bothListAcme) acmeA16z =
    nameKey (toLowerCase bothListAcme) acmeYC /\
  ~ (forall fuel env l,
       scrapeStartups fuel env = Some (Normal l) ->
       NoDup (nameKey (toLowerCase env) <$> l)).
Proof.
  pose proof bothListAcme_scraped as Hrun.
  split_and!; [exact Hrun|reflexivity|].
  intros H. specialize (H _ _ _ Hrun).
  apply NoDup_cons in H as [Hnotin _]. apply Hnotin.
  apply list_elem_of_singleton. reflexivity.
Qed.

(** Each source lists a company three times, under names that differ in
    case only, and another company after it. *)
Definition listedThrice : Env :=
  {| toLowerCase := asciiLowerCase;
     portfolio := fun _ => Normal (fun selector =>
       if String.eqb selector ".company-grid-item"
       then [titled "Acme"; titled "ACME"; titled "Bolt"; titled "acme"]
       else []);
     linkedIn := fun _ => Normal EmptyString;
     directory := fun _ _ _ =>
       Normal (Data {| companies :=
                         Entries [listing "ACME"; listing "Acme";
                                  listing "Bolt"; listing "acme"];
                       next := false; nextPage := false |}) |}.

Definition boltA16z : Startup :=
  {| name := Some "Bolt"; website := Some "not found";
     linkedin_url := Some EmptyString; source := Some "a16z" |}.

Definition boltYC : Startup :=
  {| name := Some "Bolt"; website := Some "not found";
     linkedin_url := Some "not found"; source := Some "YC W24" |}.

Lemma names_unique_within_each_scraper_witness :
  scrapeA16z listedThrice = Normal [acmeA16z; boltA16z] /\
  NoDup (nameKey asciiLowerCase <$> [acmeA16z; boltA16z]) /\
  scrapeYCombinator 1 listedThrice = Some (Normal [acmeYC; boltYC]) /\
  NoDup (nameKey asciiLowerCase <$> [acmeYC; boltYC]).
Proof.
  pose proof (names_unique_within_each_scraper listedThrice)
    as (Ha & Hy & _).
  assert (scrapeA16z listedThrice = Normal [acmeA16z; boltA16z]) as Ea
    by (vm_compute; reflexivity).
  assert (scrapeYCombinator 1 listedThrice = Some (Normal [acmeYC; boltYC]))
    as Ey by (vm_compute; reflexivity).
  split_and!; [exact Ea|exact (Ha _ Ea)|exact Ey|exact (Hy _ _ Ey)].
Defined.

End PerScraperUniqueness.

(** ** Portfolio scraper: which selector ends the search *)

Section SelectorSearch.

Import Scraper.
Local Open Scope list_scope.

Implicit Types (env : Env) (doc : Document) (st : A16z.State).

(** The records that the elements matching [sel] give: the valid
    candidates, the first of each name. *)
Definition accepted env doc (sel : string) : list Startup :=
  validUnique (toLowerCase env) (omap (a16zCandidate env) (doc sel)).

(** The state of the search while no record was accepted. *)
Definition searching (tried : list string) (processed : list Element)
    : A16z.State :=
  {| A16z.startups := []; A16z.processedNames := ∅;
     A16z.tried := tried; A16z.processed := processed |}.

Lemma urlLoop_single env url sels st doc :
  portfolio env url = Normal doc ->
  urlLoop env [url] sels st = selectorLoop env doc sels st.
Proof.
  intros Hdoc. cbn [urlLoop]. rewrite Hdoc.
  by destruct (0 <? length _)%nat.
Qed.

Lemma length_pos_iff {A} (l : list A) : (0 <? length l)%nat = true <-> l <> [].
Proof. destruct l; simpl; split; (done || lia || intros; lia). Qed.

(** The item loop on the elements of one selector, while no record was
    accepted before. *)
Lemma a16zItems_searching env doc sel tried processed :
  let st := foldl (a16zItem env) (searching tried processed) (doc sel) in
  A16z.startups st = accepted env doc sel /\
  A16z.tried st = tried /\
  A16z.processed st = processed ++ doc sel /\
  (accepted env doc sel = [] -> st = searching tried (processed ++ doc sel)).
Proof.
  intros st.
  destruct (a16zItems_keepFirst env (doc sel) (searching tried processed))
    as [Hst Hseen].
  destruct (a16zItems_log env (doc sel) (searching tried processed))
    as [Htr Hpr].
  fold st in Hst, Hseen, Htr, Hpr.
  change (A16z.startups (searching tried processed))
    with (@nil Startup) in Hst.
  change (A16z.processedNames (searching tried processed))
    with (∅ : gset string) in Hst, Hseen.
  change (A16z.tried (searching tried processed)) with tried in Htr.
  change (A16z.processed (searching tried processed)) with processed in Hpr.
  rewrite app_nil_l in Hst. fold (validUnique (toLowerCase env)
    (omap (a16zCandidate env) (doc sel))) in Hst, Hseen.
  fold (accepted env doc sel) in Hst, Hseen.
  split_and!; try done.
  intros Hnone. rewrite Hnone in Hst, Hseen.
  destruct st as [a b c d]. simpl in *. subst. unfold searching.
  f_equal; set_solver.
Qed.

(** One turn of the selector loop, while no record was accepted before. *)
Lemma selectorLoop_turn env doc sel rest tried processed :
  selectorLoop env doc (sel :: rest) (searching tried processed) =
    if bool_decide (accepted env doc sel = [])
    then selectorLoop env doc rest
           (searching (tried ++ [sel]) (processed ++ doc sel))
    else foldl (a16zItem env) (searching (tried ++ [sel]) processed)
           (doc sel).
Proof.
  cbn [selectorLoop].
  change {| A16z.startups := A16z.startups (searching tried processed);
            A16z.processedNames :=
              A16z.processedNames (searching tried processed);
            A16z.tried := A16z.tried (searching tried processed) ++ [sel];
            A16z.processed := A16z.processed (searching tried processed) |}
    with (searching (tried ++ [sel]) processed).
  destruct (a16zItems_searching env doc sel (tried ++ [sel]) processed)
    as (Hst & _ & _ & Hnone).
  destruct (doc sel) as [|item items] eqn:E.
  - rewrite bool_decide_eq_true_2 by done. simpl. by rewrite app_nil_r.
  - rewrite <- E in *.
    assert ((0 <? length (doc sel))%nat = true) as ->
      by (by apply length_pos_iff; rewrite E).
    case_bool_decide as Hacc.
    + rewrite (Hnone Hacc). reflexivity.
    + assert ((0 <? length (A16z.startups
                  (foldl (a16zItem env)
                     (searching (tried ++ [sel]) processed) (doc sel))))%nat
              = true) as ->; [|done].
      apply length_pos_iff. by rewrite Hst.
Qed.

(** Selectors whose elements give no accepted record are passed over;
    their elements were processed. *)
Lemma selectorLoop_passes env doc rest : forall pre tried processed,
  Forall (fun x => accepted env doc x = []) pre ->
  selectorLoop env doc (pre ++ rest) (searching tried processed) =
    selectorLoop env doc rest
      (searching (tried ++ pre) (processed ++ concat (doc <$> pre))).
Proof.
  induction pre as [|x pre IH]; intros tried processed Hpre.
  - simpl. by rewrite !app_nil_r.
  - apply Forall_cons in Hpre as [Hx Hpre].
    rewrite <- app_comm_cons, selectorLoop_turn.
    rewrite bool_decide_eq_true_2 by done.
    rewrite (IH _ _ Hpre), fmap_cons. simpl concat.
    by rewrite <- !app_assoc.
Qed.

(** The search from its start, up to the first selector that gives an
    accepted record. *)
Lemma selectorLoop_stops env doc pre s post :
  Forall (fun x => accepted env doc x = []) pre ->
  accepted env doc s <> [] ->
  let st := selectorLoop env doc (pre ++ s :: post) A16z.init in
  A16z.tried st = pre ++ [s] /\
  A16z.processed st = concat (doc <$> pre) ++ doc s /\
  A16z.startups st = accepted env doc s.
Proof.
  intros Hpre Hacc. cbv zeta.
  change A16z.init with (searching [] []).
  rewrite (selectorLoop_passes env doc _ pre _ _ Hpre), selectorLoop_turn.
  rewrite bool_decide_eq_false_2 by done.
  rewrite !app_nil_l.
  destruct (a16zItems_searching env doc s (pre ++ [s])
              (concat (doc <$> pre))) as (Hst & Htr & Hpr & _).
  by rewrite Htr, Hpr, Hst.
Qed.

(** C4 (as amended).  The selector loop stops at the first selector whose
    elements give at least one accepted record: it is the last one
    queried, the elements processed are those of the selectors before it,
    none of which was accepted, and its own, and the records returned are
    the ones its elements give.  A selector that matches elements of which
    none is accepted does not end the search; when no selector gives an
    accepted record, all are queried.  When the first two selectors of a
    list match nothing and the third matches five elements of which one
    at least is accepted, those five are processed and no further selector
    is queried. *)
Theorem selector_search_stops_at_first_accepted env doc :
  (forall pre s post,
     Forall (fun x => accepted env doc x = []) pre ->
     accepted env doc s <> [] ->
     let st := selectorLoop env doc (pre ++ s :: post) A16z.init in
     A16z.tried st = pre ++ [s] /\
     A16z.processed st = concat (doc <$> pre) ++ doc s /\
     A16z.startups st = accepted env doc s) /\
  (forall sels,
     Forall (fun x => accepted env doc x = []) sels ->
     let st := selectorLoop env doc sels A16z.init in
     A16z.tried st = sels /\
     A16z.processed st = concat (doc <$> sels) /\
     A16z.startups st = []) /\
  (forall s1 s2 s3 post,
     doc s1 = [] -> doc s2 = [] -> length (doc s3) = 5 ->
     accepted env doc s3 <> [] ->
     let st := selectorLoop env doc (s1 :: s2 :: s3 :: post) A16z.init in
     A16z.tried st = [s1; s2; s3] /\ A16z.processed st = doc s3) /\
  (portfolio env "https://a16z.com/portfolio/" = Normal doc ->
   forall pre s post,
     selectors = pre ++ s :: post ->
     Forall (fun x => accepted env doc x = []) pre ->
     accepted env doc s <> [] ->
     A16z.tried (a16zRun env) = pre ++ [s] /\
     A16z.processed (a16zRun env) = concat (doc <$> pre) ++ doc s /\
     scrapeA16z env = Normal (accepted env doc s)).
Proof.
  split_and!.
  - apply selectorLoop_stops.
  - intros sels Hsels. cbv zeta. change A16z.init with (searching [] []).
    pose proof (selectorLoop_passes env doc [] sels [] [] Hsels) as H.
    rewrite app_nil_r in H. rewrite H. done.
  - intros s1 s2 s3 post H1 H2 _ Hacc.
    assert (Forall (fun x => accepted env doc x = []) [s1; s2]) as Hpre.
    { unfold accepted. repeat constructor; by rewrite ?H1, ?H2. }
    destruct (selectorLoop_stops env doc [s1; s2] s3 post Hpre Hacc)
      as (Htr & Hpr & _).
    cbv zeta. split; [exact Htr|].
    change (s1 :: s2 :: s3 :: post) with ([s1; s2] ++ s3 :: post).
    rewrite Hpr. simpl. by rewrite H1, H2.
  - intros Hdoc pre s post Hsel Hpre Hacc. unfold scrapeA16z, a16zRun, urls.
    rewrite (urlLoop_single env _ selectors A16z.init doc Hdoc), Hsel.
    destruct (selectorLoop_stops env doc pre s post Hpre Hacc)
      as (Htr & Hpr & Hst).
    by rewrite Htr, Hpr, Hst.
Qed.

(** The first selector matches one element without a name, the second
    one element named Acme. *)
Definition blank : Element :=
  {| data_name := None; builder_title := EmptyString;
     heading := EmptyString |}.

Definition acme : Element :=
  {| data_name := Some "Acme"; builder_title := EmptyString;
     heading := EmptyString |}.

Definition blankThenAcme : Document :=
  fun selector =>
    if String.eqb selector ".company-grid-item" then [blank]
    else if String.eqb selector ".builder" then [acme]
    else if String.eqb selector "[data-name]" then [acme]
    else [].

Definition blankFirst : Env :=
  {| toLowerCase := asciiLowerCase;
     portfolio := fun _ => Normal blankThenAcme;
     linkedIn := fun _ => Normal EmptyString;
     directory := fun _ _ _ =>
       Normal (Data {| companies := Missing; next := false;
                       nextPage := false |}) |}.

(** C4 as stated fails: the first selector that matches an element is not
    the last one queried when none of its elements is accepted. *)
Lemma later_selector_tried_after_a_match :
  blankThenAcme ".company-grid-item" = [blank] /\
  A16z.tried (a16zRun blankFirst) = [".company-grid-item"; ".builder"] /\
  A16z.processed (a16zRun blankFirst) = [blank; acme] /\
  ~ (forall env doc pre s post,
       Forall (fun x => doc x = []) pre -> doc s <> [] ->
       let st := selectorLoop env doc (pre ++ s :: post) A16z.init in
       A16z.tried st = pre ++ [s] /\ A16z.processed st = doc s).
Proof.
  split_and!; [reflexivity|vm_compute; reflexivity|vm_compute; reflexivity|].
  intros H.
  destruct (H blankFirst blankThenAcme [] ".company-grid-item"
              (tail selectors) (Forall_nil_2 _)) as [Htried _]; [done|].
  vm_compute in Htried. discriminate Htried.
Qed.

(** Five list items with a name each; two selectors of the list match
    nothing, the third and the last match the five. *)
Definition five : list Element :=
  (fun n => {| data_name := Some n; builder_title := EmptyString;
               heading := EmptyString |})
    <$> ["Alpha"; "Bravo"; "Charlie"; "Delta"; "Echo"].

Definition fiveItems : Document :=
  fun selector =>
    if String.eqb selector "li.company" then five
    else if String.eqb selector "[data-name]" then five
    else [].

Definition fiveListed : Env :=
  {| toLowerCase := asciiLowerCase;
     portfolio := fun _ => Normal fiveItems;
     linkedIn := fun _ => Normal EmptyString;
     directory := fun _ _ _ =>
       Normal (Data {| companies := Missing; next := false;
                       nextPage := false |}) |}.

Lemma selector_search_stops_at_first_accepted_witness :
  (A16z.tried (a16zRun blankFirst) = [".company-grid-item"; ".builder"] /\
   A16z.processed (a16zRun blankFirst) = [blank; acme] /\
   scrapeA16z blankFirst = Normal (accepted blankFirst blankThenAcme ".builder")) /\
  (let st := selectorLoop fiveListed fiveItems
               [".card"; ".tile"; "li.company"; "[data-name]"] A16z.init in
   A16z.tried st = [".card"; ".tile"; "li.company"] /\
   A16z.processed st = five).
Proof.
  split.
  - apply (proj2 (proj2 (proj2
             (selector_search_stops_at_first_accepted blankFirst
                blankThenAcme))) eq_refl [".company-grid-item"] ".builder"
             (tail (tail selectors)) eq_refl).
    + repeat constructor.
    + intros H. vm_compute in H. discriminate H.
  - apply (proj1 (proj2 (proj2
             (selector_search_stops_at_first_accepted fiveListed fiveItems)))
             ".card" ".tile" "li.company" ["[data-name]"]);
      try reflexivity.
    intros H. vm_compute in H. discriminate H.
Defined.

End SelectorSearch.

(** ** Directory scraper: the cohort loop *)

Section CohortLoop.

Import Scraper.
Local Open Scope list_scope.

Implicit Types (env : Env) (batch : string) (st : YC.State).













(** A turn on a page that lists companies, on one of which the condition
    of the loop throws. *)
Lemma ycPage_raises env batch st data entries :
  directory env batch (YC.page st) (YC.attempts st) = Normal (Data data) ->
  companies data = Entries entries -> raises entries = true ->
  ycPage env batch st =
    ycCatch (YC.attempts st)
      (foldl (ycCompany env batch) st (reached entries)).
Proof.
  intros Hd Hc Hr. unfold ycPage. rewrite Hd, Hc.
  destruct entries as [|e entries]; [done|].
  by rewrite ycCompanies_reached, Hr.
Qed.


Lemma ycCompany_errors env batch st c :
  YC.consecutiveErrors st <=
    YC.consecutiveErrors (ycCompany env batch st c) /\
  ((forall cname, exists url, linkedIn env cname = Normal url) ->
   YC.consecutiveErrors (ycCompany env batch st c) =
     YC.consecutiveErrors st).
Proof.
  unfold ycCompany. destruct (company_name c) as [cname|]; [|done].
  destruct (_ && _); [|done].
  destruct (linkedIn env cname) as [url|error] eqn:E.
  - by destruct (validateCompany _).
  - simpl. split; [lia|]. intros H. destruct (H cname) as [url Hu].
    congruence.
Qed.

Lemma ycCompanies_errors env batch cs : forall st,
  YC.consecutiveErrors st <=
    YC.consecutiveErrors (foldl (ycCompany env batch) st cs) /\
  ((forall cname, exists url, linkedIn env cname = Normal url) ->
   YC.consecutiveErrors (foldl (ycCompany env batch) st cs) =
     YC.consecutiveErrors st).
Proof.
  induction cs as [|c cs IH]; intros st; simpl; [done|].
  destruct (IH (ycCompany env batch st c)) as [IH1 IH2].
  destruct (ycCompany_errors env batch st c) as [H1 H2].
  split; [lia|]. intros H. by rewrite IH2, H2.
Qed.








End CohortLoop.

(** ** Worked runs of the directory scraper *)

Section CohortRuns.

Import Scraper.
Local Open Scope list_scope.

(** The [i]-th company of a page: a two-letter name. *)
Definition listed (i : nat) : Company :=
  {| company_name :=
       Some (String (Ascii.ascii_of_nat (65 + i / 10))
               (String (Ascii.ascii_of_nat (97 + i mod 10)) EmptyString));
     company_website := None |}.



Definition fullPage (cs : list Company) : Page :=
  {| companies := Entries (Listing <$> cs); next := true;
     nextPage := false |}.








(** One page of two companies, after which every fetch fails. *)
Definition onePageThenDown : Env :=
  {| toLowerCase := asciiLowerCase;
     portfolio := fun _ => Throw notFound;
     linkedIn := fun _ => Normal EmptyString;
     directory := fun _ page _ =>
       match page with
       | 0 => Normal (Data (fullPage [listed 0; listed 1]))
       | _ => Throw notFound
       end |}.








End CohortRuns.

(** ** Ingestion endpoint *)

Section Ingestion.

Import Scraper Ingest.
Local Open Scope list_scope.

Lemma upsertRow_keeps (s : gmap string Row) row k :
  is_Some (s !! k) -> is_Some (upsertRow s row !! k).
Proof.
  intros Hk. unfold upsertRow. destruct (s !! row_name row) eqn:E; [done|].
  destruct (decide (row_name row = k)) as [->|Hne].
  - rewrite lookup_insert_eq. by eexists.
  - by rewrite lookup_insert_ne.
Qed.

Lemma upsertRows_keeps rows : forall (s : gmap string Row) k,
  is_Some (s !! k) -> is_Some (upsertRows s rows !! k).
Proof.
  induction rows as [|row rows IH]; intros s k Hk; simpl; [done|].
  by apply IH, upsertRow_keeps.
Qed.

Lemma upsertRow_covers (s : gmap string Row) row :
  is_Some (upsertRow s row !! row_name row).
Proof.
  unfold upsertRow. destruct (s !! row_name row) eqn:E.
  - rewrite E. by eexists.
  - rewrite lookup_insert_eq. by eexists.
Qed.

(** After a batch is upserted every name of the batch is stored. *)
Lemma upsertRows_covers rows : forall (s : gmap string Row) row,
  row ∈ rows -> is_Some (upsertRows s rows !! row_name row).
Proof.
  induction rows as [|r rows IH]; intros s row Hin.
  - by apply elem_of_nil in Hin.
  - apply elem_of_cons in Hin as [->|Hin]; simpl.
    + apply upsertRows_keeps, upsertRow_covers.
    + by apply IH.
Qed.

(** Upserting rows whose names are all stored changes nothing. *)
Lemma upsertRows_present rows : forall (s : gmap string Row),
  (forall row, row ∈ rows -> is_Some (s !! row_name row)) ->
  upsertRows s rows = s.
Proof.
  induction rows as [|r rows IH]; intros s Hin; simpl; [done|].
  assert (upsertRow s r = s) as ->.
  { unfold upsertRow. destruct (Hin r) as [x ->]; [|done]. apply list_elem_of_here. }
  apply IH. intros row Hrow. apply Hin. by apply list_elem_of_further.
Qed.

Lemma toInsert_name clock1 clock2 i startup :
  row_name (toInsert clock1 i startup) = row_name (toInsert clock2 i startup).
Proof. done. Qed.

Lemma imap_toInsert_names clock1 clock2 results row :
  row ∈ imap (toInsert clock2) results ->
  exists row', row' ∈ imap (toInsert clock1) results /\
               row_name row' = row_name row.
Proof.
  intros Hin. apply list_elem_of_lookup in Hin as [i Hi].
  rewrite list_lookup_imap in Hi.
  destruct (results !! i) as [startup|] eqn:Er; simpl in Hi; [|done].
  injection Hi as <-. exists (toInsert clock1 i startup). split; [|done].
  apply list_elem_of_lookup. exists i.
  by rewrite list_lookup_imap, Er.
Qed.

(** C7.  With a store that inserts a row unless its name is stored: a
    second run of [GET] on what the first run left, against the same
    outside world, leaves the store as it is and answers with the same
    body, the same [totalCount] in particular.  Upserting rows whose names
    are all stored leaves the count unchanged. *)
Theorem GET_again_same_totalCount fuel env clock1 clock2
    (store store1 : gmap string Row) r1 :
  GET nameKeyed fuel env clock1 store = Some (store1, r1) ->
  (exists r2,
     GET nameKeyed fuel env clock2 store1 = Some (store1, r2) /\
     body r2 = body r1) /\
  (forall rows,
     (forall row, row ∈ rows -> is_Some (store1 !! row_name row)) ->
     count nameKeyed (upsertRows store1 rows) = count nameKeyed store1).
Proof.
  intros Hfirst. split.
  - unfold GET in *.
    destruct (scrapeStartups fuel env) as [[results|error]|]; [| |done].
    + destruct (0 <? length results)%nat eqn:El; simpl in *.
      * injection Hfirst as <- <-.
        rewrite upsertRows_present.
        { eexists. split; [reflexivity|done]. }
        intros row Hrow.
        apply (imap_toInsert_names clock1) in Hrow as (row' & Hrow' & <-).
        by apply upsertRows_covers.
      * injection Hfirst as <- <-. eexists. split; [reflexivity|done].
    + injection Hfirst as <- <-. eexists. split; [reflexivity|done].
  - intros rows Hrows. by rewrite upsertRows_present.
Qed.

(** C8.  When the scrape returns [results]: every result is mapped to a
    row in which a missing or empty name, website or LinkedIn address is
    replaced by its sentinel, stamped with the time of the mapping; with
    no result nothing is written; and when the upsert does not fail the
    answer has status 200, [newCount] the number of results, [totalCount]
    the count of the store after the upsert, and the message for no new
    startups exactly when there is no result. *)
Theorem GET_success_summary (db : Storage) fuel env clock
    (store : Store db) results :
  scrapeStartups fuel env = Some (Normal results) ->
  (forall i startup,
     results !! i = Some startup ->
     exists row,
       imap (toInsert clock) results !! i = Some row /\
       created_at row = clock i /\
       (forall v, name startup = Some v -> v <> EmptyString ->
                  row_name row = v) /\
       (name startup = None \/ name startup = Some EmptyString ->
        row_name row = "Unknown"%string) /\
       (forall v, website startup = Some v -> v <> EmptyString ->
                  row_website row = v) /\
       (website startup = None \/ website startup = Some EmptyString ->
        row_website row = "not found"%string) /\
       (forall v, linkedin_url startup = Some v -> v <> EmptyString ->
                  row_linkedin_url row = v) /\
       (linkedin_url startup = None \/
        linkedin_url startup = Some EmptyString ->
        row_linkedin_url row = "not found"%string)) /\
  (results = [] ->
   GET db fuel env clock store =
     Some (store,
           {| body := Success 0 (count db store) "No new startups found";
              status := 200 |})) /\
  (forall store',
     results <> [] ->
     upsert db store (imap (toInsert clock) results) = Normal store' ->
     GET db fuel env clock store =
       Some (store',
             {| body :=
                  Success (length results) (count db store')
                    "Scrape completed successfully";
                status := 200 |})).
Proof.
  intros Hscrape. split_and!.
  - intros i startup Hi. exists (toInsert clock i startup).
    rewrite list_lookup_imap, Hi. split; [done|]. split; [done|].
    unfold toInsert. simpl.
    split_and!.
    + intros v -> Hv. by destruct v.
    + by intros [->| ->].
    + intros v -> Hv. by destruct v.
    + by intros [->| ->].
    + intros v -> Hv. by destruct v.
    + by intros [->| ->].
  - intros ->. unfold GET. by rewrite Hscrape.
  - intros store' Hne Hup. unfold GET. rewrite Hscrape.
    destruct results as [|r results]; [done|].
    cbn [length Nat.ltb Nat.leb Nat.eqb]. by rewrite Hup.
Qed.

Definition noon (i : nat) : string := "2024-03-01T12:00:00.000Z".

Definition evening (i : nat) : string := "2024-03-01T20:00:00.000Z".

Lemma GET_again_same_totalCount_witness :
  exists store1 r1,
    GET nameKeyed 1 bothListAcme noon ∅ = Some (store1, r1) /\
    body r1 = Success 2 2 "Scrape completed successfully" /\
    exists r2,
      GET nameKeyed 1 bothListAcme evening store1 = Some (store1, r2) /\
      body r2 = body r1.
Proof.
  destruct (GET nameKeyed 1 bothListAcme noon ∅) as [[store1 r1]|] eqn:E.
  - exists store1, r1. split; [reflexivity|]. split.
    + assert ((body ∘ snd) <$> GET nameKeyed 1 bothListAcme noon ∅ =
              Some (Success 2 2 "Scrape completed successfully")) as H
        by (vm_compute; reflexivity).
      rewrite E in H. simpl in H. by injection H.
    + exact (proj1 (GET_again_same_totalCount 1 bothListAcme noon evening
                      ∅ store1 r1 E)).
  - vm_compute in E. discriminate E.
Defined.

Lemma GET_success_summary_witness :
  GET nameKeyed 1 bothListAcme noon ∅ =
    Some (upsertRows ∅ (imap (toInsert noon) [acmeA16z; acmeYC]),
          {| body :=
               Success 2
                 (size (upsertRows ∅
                          (imap (toInsert noon) [acmeA16z; acmeYC])))
                 "Scrape completed successfully";
             status := 200 |}).
Proof.
  apply (proj2 (proj2 (GET_success_summary nameKeyed 1 bothListAcme noon ∅
                         [acmeA16z; acmeYC] bothListAcme_scraped)));
    [discriminate|reflexivity].
Defined.

End Ingestion.

(** * Further properties of the code *)

(** ** Rate limiter: the queue, the flag, the timer and settled promises *)

Section RateLimiterState.

Import RateLimiter.
Local Open Scope Q_scope.
Local Open Scope list_scope.

Context {T : Type}.
Implicit Types (w : World T) (e : Event T) (es : list (Event T))
  (tasks : list (Task T)).

(** X1.  The queue holds the submitted tasks that have not started, in the
    order of submission: no task is dropped, none is queued twice. *)
Theorem queue_is_the_unstarted_tasks (requestsPerSecond t0 : Q) es w :
  run (create requestsPerSecond t0) es = Some w ->
  queue w = drop (length (starts w)) (tickets (submitted es)) /\
  length (promises w) = length (submitted es) /\
  (length (starts w) + length (queue w))%nat = length (submitted es).
Proof.
  intros Hrun.
  pose proof (OutcomeInv_run es [] _ _
                (OutcomeInv_create requestsPerSecond t0) Hrun) as Hw.
  simpl in Hw. destruct Hw as [Hs Hq Hl _ _].
  split_and!; [done..|].
  rewrite Hq, length_drop. unfold tickets. rewrite length_imap. lia.
Qed.

(** X2.  [processing] is set exactly while a call chain of [process] is
    suspended, and a limiter that is not processing has an empty queue:
    no submitted task waits without a drain that will reach it. *)
Theorem processing_iff_draining (requestsPerSecond t0 : Q) es w :
  run (create requestsPerSecond t0) es = Some w ->
  (processing w = true <-> drain w <> Idle) /\
  (processing w = false -> queue w = []) /\
  (forall due, drain w = Sleeping due -> queue w <> []).
Proof.
  intros Hrun.
  pose proof (OutcomeInv_run es [] _ _
                (OutcomeInv_create requestsPerSecond t0) Hrun) as Hw.
  pose proof (ui_drain _ _ Hw) as Hd.
  destruct (drain w) as [|due|p fn].
  - destruct Hd as [Hq Hp]. split_and!; [|done|done].
    rewrite Hp. split; [discriminate|congruence].
  - destruct Hd as [Hq Hp]. split_and!.
    + rewrite Hp. split; [discriminate|done].
    + rewrite Hp. discriminate.
    + intros _ _. exact Hq.
  - destruct Hd as (_ & _ & Hp). split_and!.
    + rewrite Hp. split; [discriminate|done].
    + rewrite Hp. discriminate.
    + discriminate.
Qed.

Lemma finished_step tasks w e w' :
  OutcomeInv tasks w -> step w e = Some w' ->
  (finished w <= finished w')%nat.
Proof.
  intros Hw He. pose proof (ui_drain _ _ Hw) as Hd.
  destruct e as [fn|dt| |]; simpl in He.
  - injection He as <-. unfold add. simpl.
    destruct (processing w) eqn:Ep; [done|].
    destruct (drain w) as [|due|p fn0] eqn:Edr;
      [|destruct Hd; congruence|destruct Hd as (?&?&?); congruence].
    unfold process, finished. simpl. rewrite Edr.
    by destruct (queue w ++ _).
  - unfold elapse in He. destruct (Qle_bool 0 dt); [|done].
    by injection He as <-.
  - unfold timerFires in He.
    destruct (drain w) as [|due|] eqn:Edr; try done.
    destruct (Qle_bool due (now w)); [|done].
    destruct (queue w) as [|[p fn] rest] eqn:Eq.
    + injection He as <-. unfold process, finished. rewrite Eq, Edr. done.
    + injection He as <-. unfold finished. simpl. rewrite Edr, length_app.
      simpl. lia.
  - unfold taskSettles in He.
    destruct (drain w) as [| |p fn] eqn:Edr; try done.
    injection He as <-. unfold process, finished. simpl. rewrite Edr.
    destruct (queue w); simpl; lia.
Qed.

Lemma finished_run es : forall tasks w w',
  OutcomeInv tasks w -> run w es = Some w' ->
  (finished w <= finished w')%nat.
Proof.
  induction es as [|e es IH]; intros tasks w w' Hw Hr; simpl in Hr.
  - by injection Hr as <-.
  - destruct (step w e) as [w1|] eqn:E1; [|done].
    pose proof (finished_step _ _ _ _ Hw E1) as H1.
    assert (exists tasks1, OutcomeInv tasks1 w1) as [tasks1 Hw1].
    { destruct e as [fn|dt| |].
      - exists (tasks ++ [fn]). simpl in E1. injection E1 as <-.
        by apply OutcomeInv_add.
      - exists tasks. eapply OutcomeInv_step_other; [exact Hw| |exact E1]; done.
      - exists tasks. eapply OutcomeInv_step_other; [exact Hw| |exact E1]; done.
      - exists tasks. eapply OutcomeInv_step_other; [exact Hw| |exact E1]; done. }
    pose proof (IH _ _ _ Hw1 Hr). lia.
Qed.

(** X3.  A promise is settled once: after it is resolved or rejected, no
    later event of the limiter changes it. *)
Theorem settled_promise_is_final (requestsPerSecond t0 : Q) es es' w w' p st :
  run (create requestsPerSecond t0) es = Some w ->
  run w es' = Some w' ->
  promises w !! p = Some st -> st <> Pending ->
  promises w' !! p = Some st.
Proof.
  intros Hrun Hrun' Hp Hst.
  pose proof (OutcomeInv_run es [] _ _
                (OutcomeInv_create requestsPerSecond t0) Hrun) as Hw.
  simpl in Hw.
  pose proof (OutcomeInv_run es' _ _ _ Hw Hrun') as Hw'.
  pose proof (finished_run es' _ _ _ Hw Hrun') as Hfin.
  assert (p < length (submitted es))%nat as Hlt.
  { rewrite <- (ui_length _ _ Hw). by eapply lookup_lt_Some. }
  destruct (lookup_lt_is_Some_2 _ _ Hlt) as [fn Hfn].
  rewrite (ui_promises _ _ Hw p fn Hfn) in Hp.
  case_bool_decide as Hdone; [|congruence].
  injection Hp as <-.
  rewrite (ui_promises _ _ Hw' p fn) by (by apply lookup_app_l_Some).
  by rewrite bool_decide_eq_true_2 by lia.
Qed.

(** What a reachable state satisfies about the pending timer: it is due
    no later than one interval after the last start, or within a
    millisecond. *)
Definition TimerInv w : Prop :=
  forall due, drain w = Sleeping due ->
    due <= lastRequestTime w + delayMs w \/ due <= now w + 1.

Lemma TimerInv_process w : TimerInv (process w).
Proof.
  unfold process, TimerInv. destruct (queue w); simpl; [done|].
  intros due [= <-]. unfold timerDelay.
  set (ttw := Math_max 0 (lastRequestTime w + delayMs w - now w)).
  destruct (Qle_bool 1 ttw) eqn:E1; simpl; [|right; lra].
  destruct (Qle_bool ttw TIMEOUT_MAX); [|right; lra].
  apply Qle_bool_iff in E1. left.
  pose proof (Qfloor_le ttw) as Hfl.
  assert (ttw = lastRequestTime w + delayMs w - now w) as Httw.
  { unfold ttw, Math_max in *. destruct (Qle_bool 0 _); [done|lra]. }
  rewrite Httw in Hfl at 2. lra.
Qed.

Lemma TimerInv_step w e w' :
  TimerInv w -> step w e = Some w' -> TimerInv w'.
Proof.
  intros Hw He. destruct e as [fn|dt| |]; simpl in He.
  - injection He as <-. unfold add. simpl.
    destruct (processing w); [exact Hw|apply TimerInv_process].
  - unfold elapse in He. destruct (Qle_bool 0 dt) eqn:Edt; [|done].
    apply Qle_bool_iff in Edt. injection He as <-.
    intros due Hdue. simpl in *. destruct (Hw due Hdue); [left|right]; lra.
  - unfold timerFires in He.
    destruct (drain w) as [|due|] eqn:Edr; try done.
    destruct (Qle_bool due (now w)); [|done].
    destruct (queue w) as [|[p fn] rest].
    + injection He as <-. apply TimerInv_process.
    + injection He as <-. intros due'. simpl. discriminate.
  - unfold taskSettles in He.
    destruct (drain w) as [| |p fn] eqn:Edr; try done.
    injection He as <-. apply TimerInv_process.
Qed.

Lemma TimerInv_run es : forall w w',
  TimerInv w -> run w es = Some w' -> TimerInv w'.
Proof.
  induction es as [|e es IH]; intros w w' Hw Hr; simpl in Hr.
  - by injection Hr as <-.
  - destruct (step w e) as [w1|] eqn:E1; [|done].
    eapply IH; [|exact Hr]. by eapply TimerInv_step.
Qed.

(** X4.  The limiter waits no longer than the spacing asks for: a pending
    timer is due no later than one interval after the last start, or
    within a millisecond, the shortest delay of a timer, when that moment
    is less than a millisecond away or has passed.  On a clock of whole
    milliseconds and for an interval within the range of the timers it is
    due no earlier than the whole part of the interval after the last
    start. *)
Theorem timer_is_due_as_early_as_allowed (requestsPerSecond t0 : Q) es w due :
  0 < requestsPerSecond ->
  run (create requestsPerSecond t0) es = Some w ->
  drain w = Sleeping due ->
  (due <= lastRequestTime w + 1000 / requestsPerSecond \/
   due <= now w + 1) /\
  (1000 / requestsPerSecond <= TIMEOUT_MAX ->
   0 <= t0 -> whole t0 = true -> wholeSteps es = true ->
   lastRequestTime w + inject_Z (Qfloor (1000 / requestsPerSecond)) <= due).
Proof.
  intros _ Hrun Hdue.
  destruct (OrderInv_run _ es _ _ (OrderInv_create requestsPerSecond t0) Hrun)
    as [Hd _ _ _ _].
  split.
  - assert (TimerInv (create requestsPerSecond t0)) as H0
      by (intros d; simpl; discriminate).
    pose proof (TimerInv_run es _ _ H0 Hrun due Hdue) as H.
    by rewrite Hd in H.
  - intros Hmax Ht0 Hwh Hes.
    destruct (PaceInv_run _ es _ _ Hmax
                (PaceInv_create requestsPerSecond t0 Ht0 Hwh) Hes Hrun)
      as [_ _ _ _ _ _ Hlow].
    by apply Hlow.
Qed.

End RateLimiterState.

(** ** Retry wrapper: the shape of every call *)

Section RetryShape.

Import Retry.
Local Open Scope list_scope.

Context {R : Type}.
Implicit Types (get : nat -> Completion Error R) (url : string).

(** The completion is a failure with an HTTP 429. *)
Definition throttledCall (c : Completion Error R) : Prop :=
  exists error, c = Throw error /\ tooManyRequests error = true.

Lemma gets_backoffs url k : gets (backoffs url k) = S k.
Proof. induction k as [|k IH]; simpl; [done|]. by rewrite IH. Qed.

Lemma fetchWithRetry_shape get url : forall retries attempt,
  exists k,
    k <= retries /\
    fetchWithRetry get url attempt retries =
      (backoffs url k, get (attempt + k)) /\
    (forall i, i < k -> throttledCall (get (attempt + i))) /\
    (k < retries -> ~ throttledCall (get (attempt + k))).
Proof.
  induction retries as [|r IH]; intros attempt.
  - exists 0. rewrite Nat.add_0_r. split_and!; [done| |lia|lia].
    simpl. by destruct (get attempt).
  - rewrite fetchWithRetry_unfold.
    destruct (get attempt) as [response|error] eqn:Eg.
    + exists 0. rewrite Nat.add_0_r, Eg. split_and!; [lia|done|lia|].
      intros _ (e & He & _). discriminate.
    + destruct (tooManyRequests error) eqn:E429.
      * destruct (IH (S attempt)) as (k & Hk & Hf & Hpre & Hlast).
        exists (S k). rewrite Hf.
        replace (attempt + S k) with (S attempt + k) by lia.
        split_and!; [lia|done| |].
        -- intros i Hi. destruct i as [|i].
           ++ rewrite Nat.add_0_r, Eg. by exists error.
           ++ replace (attempt + S i) with (S attempt + i) by lia.
              apply Hpre. lia.
        -- intros Hlt. apply Hlast. lia.
      * exists 0. rewrite Nat.add_0_r, Eg. split_and!; [lia|done|lia|].
        intros _ (e & He & H429). injection He as <-. congruence.
Qed.

(** X5.  A call makes at most [retries + 1] requests, waits 2000 ms before
    every request but the first, and does nothing else. *)
Theorem fetchWithRetry_requests_and_delays get url attempt retries :
  exists k,
    k <= retries /\
    (fetchWithRetry get url attempt retries).1 = backoffs url k /\
    gets (fetchWithRetry get url attempt retries).1 = S k.
Proof.
  destruct (fetchWithRetry_shape get url retries attempt)
    as (k & Hk & Hf & _).
  exists k. rewrite Hf. simpl. split_and!; [done..|apply gets_backoffs].
Qed.

(** X6.  What the caller gets is the completion of the last request, as it
    is: the response when it succeeded, its error when it failed.  Every
    request before the last was answered 429, and a 429 is handed to the
    caller only when the whole budget is spent. *)
Theorem fetchWithRetry_outcome_is_last_request get url attempt retries :
  exists k,
    k <= retries /\
    (fetchWithRetry get url attempt retries).2 = get (attempt + k) /\
    (forall i, i < k -> throttledCall (get (attempt + i))) /\
    (throttledCall (fetchWithRetry get url attempt retries).2 ->
     k = retries).
Proof.
  destruct (fetchWithRetry_shape get url retries attempt)
    as (k & Hk & Hf & Hpre & Hlast).
  exists k. rewrite Hf. simpl. split_and!; [done..|].
  intros H429. destruct (decide (k < retries)) as [Hlt|Hge]; [|lia].
  by destruct (Hlast Hlt).
Qed.

(** X7.  A request that succeeds after [k] throttled ones, [k] within the
    budget, gives its response to the caller. *)
Theorem fetchWithRetry_recovers get url attempt retries k response :
  k <= retries ->
  (forall i, i < k -> throttledCall (get (attempt + i))) ->
  get (attempt + k) = Normal response ->
  fetchWithRetry get url attempt retries = (backoffs url k, Normal response).
Proof.
  intros Hk Hpre Hok.
  destruct (fetchWithRetry_shape get url retries attempt)
    as (k' & Hk' & Hf & Hpre' & Hlast').
  destruct (Nat.lt_trichotomy k k') as [Hlt|[->|Hgt]].
  - destruct (Hpre' k Hlt) as (e & He & _). congruence.
  - by rewrite Hf, Hok.
  - destruct (Hlast' ltac:(lia)). by apply Hpre.
Qed.

End RetryShape.

Section RetryRuns.

Import Retry.
Local Open Scope list_scope.

(** Three 429 answers and then a response: the default budget suffices. *)
Definition thriceThrottled (k : nat) : Completion Error string :=
  match k with
  | 0 | 1 | 2 => Throw throttled
  | _ => Normal "ok"
  end.

Lemma fetchWithRetry_recovers_witness :
  fetchWithRetry thriceThrottled "u" 0 MAX_RETRIES =
    (backoffs "u" 3, Normal "ok").
Proof.
  apply (fetchWithRetry_recovers thriceThrottled "u" 0 MAX_RETRIES 3 "ok").
  - unfold MAX_RETRIES. lia.
  - intros i Hi. exists throttled.
    destruct i as [|[|[|i]]]; [by split..|lia].
  - reflexivity.
Defined.

End RetryRuns.

(** ** Worked runs for the state of the limiter *)

Section LimiterStateRuns.

Import RateLimiter.
Local Open Scope list_scope.

(** Two tasks submitted together; the first has run, the second waits. *)
Definition firstDone : list (Event nat) :=
  [ Add (Normal 10); Add (Throw notFound); Elapse 1; TimerFires;
    Elapse 120; TaskSettles ].

Definition secondRuns : list (Event nat) :=
  [ Elapse 880; TimerFires; Add (Normal 30); TaskSettles ].

Lemma queue_is_the_unstarted_tasks_witness :
  exists w,
    run (create 1 5000) firstDone = Some w /\
    queue w = [(1, Throw notFound)] /\
    length (promises w) = 2 /\
    (length (starts w) + length (queue w))%nat = 2.
Proof.
  destruct (run (create 1 5000) firstDone) as [w|] eqn:E.
  - exists w. split; [reflexivity|].
    pose proof (queue_is_the_unstarted_tasks 1%Q 5000%Q firstDone w E)
      as (Hq & Hl & Hn).
    split_and!; [|exact Hl|exact Hn].
    rewrite Hq. vm_compute in E. injection E as <-. reflexivity.
  - vm_compute in E. discriminate E.
Defined.

Lemma processing_iff_draining_witness :
  exists w,
    run (create 1 5000) firstDone = Some w /\
    (processing w = true <-> drain w <> Idle) /\
    (processing w = false -> queue w = []) /\
    (forall due, drain w = Sleeping due -> queue w <> []).
Proof.
  destruct (run (create 1 5000) firstDone) as [w|] eqn:E.
  - exists w. split; [reflexivity|].
    exact (processing_iff_draining 1%Q 5000%Q firstDone w E).
  - vm_compute in E. discriminate E.
Defined.

Lemma settled_promise_is_final_witness :
  exists w w',
    run (create 1 5000) firstDone = Some w /\
    run w secondRuns = Some w' /\
    promises w !! 0 = Some (Resolved 10) /\
    promises w' !! 0 = Some (Resolved 10).
Proof.
  destruct (run (create 1 5000) firstDone) as [w|] eqn:E;
    [|vm_compute in E; discriminate E].
  destruct (run w secondRuns) as [w'|] eqn:E';
    [|vm_compute in E; injection E as <-; vm_compute in E'; discriminate E'].
  assert (promises w !! 0 = Some (Resolved 10)) as Hp
    by (vm_compute in E; injection E as <-; reflexivity).
  exists w, w'. split_and!; [reflexivity|exact E'|exact Hp|].
  apply (settled_promise_is_final 1%Q 5000%Q firstDone secondRuns w w' 0
           (Resolved 10) E E' Hp). discriminate.
Defined.

Lemma timer_is_due_as_early_as_allowed_witness :
  exists w due,
    run (create 1 5000) firstDone = Some w /\
    drain w = Sleeping due /\
    (due <= lastRequestTime w + 1000 / 1 \/ due <= now w + 1)%Q /\
    (lastRequestTime w + inject_Z (Qfloor (1000 / 1)) <= due)%Q.
Proof.
  destruct (run (create 1 5000) firstDone) as [w|] eqn:E;
    [|vm_compute in E; discriminate E].
  destruct (drain w) as [|due|p fn] eqn:Ed;
    [vm_compute in E; injection E as <-; discriminate Ed| |
     vm_compute in E; injection E as <-; discriminate Ed].
  exists w, due. split; [reflexivity|]. split; [exact Ed|].
  destruct (timer_is_due_as_early_as_allowed 1%Q 5000%Q firstDone w due
              eq_refl E Ed) as [Hup Hlow].
  split; [exact Hup|].
  apply Hlow; [discriminate|discriminate|reflexivity|reflexivity].
Defined.

End LimiterStateRuns.

(** ** More of the scrapers' helpers: [getLinkedInUrl] *)

Module Lookup.

Import Retry.

(** [s.startsWith(p)] and [s.includes(p)]. *)
Fixpoint startsWith (s p : string) : bool :=
  match p, s with
  | EmptyString, _ => true
  | String a p', String b s' => Ascii.eqb a b && startsWith s' p'
  | String _ _, EmptyString => false
  end.

Fixpoint includes (s p : string) : bool :=
  startsWith s p ||
  match s with
  | EmptyString => false
  | String _ t => includes t p
  end.

(** Characters that [encodeURIComponent] leaves as they are. *)
Definition unreserved (c : ascii) : bool :=
  let n := Ascii.nat_of_ascii c in
  ((48 <=? n)%nat && (n <=? 57)%nat) || ((65 <=? n)%nat && (n <=? 90)%nat) ||
  ((97 <=? n)%nat && (n <=? 122)%nat) ||
  existsb (Ascii.eqb c)
    ["-"; "_"; "."; "!"; "~"; "*"; "'"; "("; ")"]%char.

Definition hexDigit (n : nat) : ascii :=
  if (n <? 10)%nat then Ascii.ascii_of_nat (48 + n)
  else Ascii.ascii_of_nat (55 + n).

(** [encodeURIComponent], on a string given by its UTF-8 bytes: every
    byte that is not unreserved becomes [%XX]. *)
Fixpoint encodeURIComponent (s : string) : string :=
  match s with
  | EmptyString => EmptyString
  | String c t =>
      if unreserved c then String c (encodeURIComponent t)
      else
        let n := Ascii.nat_of_ascii c in
        String "%" (String (hexDigit (n / 16))
                      (String (hexDigit (n mod 16))
                         (encodeURIComponent t)))
  end.

Definition searchUrl (companyName : string) : string :=
  "https://www.google.com/search?q=" ++
  encodeURIComponent (companyName ++ " LinkedIn company page").

(** The page that [cheerio.load(response.data)] parses, by the [href]
    attributes of its anchors, in document order. *)
Definition SearchPage : Type := list string.

(** [$('a[href*="linkedin.com/company/"]').first().attr("href")] *)
Definition firstCompanyLink (page : SearchPage) : option string :=
  List.find (fun href => includes href "linkedin.com/company/") page.

(** [getLinkedInUrl(companyName)] of [route.ts]; [search url k] is the
    completion of the [k]-th request for [url]. *)
Definition getLinkedInUrl
    (search : string -> nat -> Completion Error SearchPage)
    (companyName : string) : string :=
  match
    (fetchWithRetry (search (searchUrl companyName))
       (searchUrl companyName) 0 MAX_RETRIES).2
  with
  | Normal page => orElse (firstCompanyLink page) EmptyString
  | Throw _ => EmptyString
  end.

End Lookup.

Section LookupProps.

Import Scraper Lookup Retry.
Local Open Scope list_scope.

Lemma startsWith_spec s p :
  startsWith s p = true <-> exists r, s = (p ++ r)%string.
Proof.
  revert s. induction p as [|a p IH]; intros s; simpl.
  - split; [intros _; exists s; reflexivity|by destruct s].
  - destruct s as [|b s]; simpl.
    + split; [discriminate|]. intros [r Hr]. discriminate Hr.
    + rewrite andb_true_iff, IH. split.
      * intros [Hab [r ->]]. apply Ascii.eqb_eq in Hab as ->.
        exists r. reflexivity.
      * intros [r Hr]. injection Hr as -> ->.
        split; [apply Ascii.eqb_refl|exists r; reflexivity].
Qed.

(** [includes s p] holds exactly when [p] occurs in [s]. *)
Lemma includes_spec s p :
  includes s p = true <-> exists l r, s = (l ++ p ++ r)%string.
Proof.
  induction s as [|c s IH]; cbn [includes];
    rewrite orb_true_iff, startsWith_spec.
  - split.
    + intros [[r Hr]|H]; [|discriminate H]. by exists EmptyString, r.
    + intros (l & r & H). left.
      destruct l; simpl in H; [by exists r|discriminate H].
  - rewrite IH. split.
    + intros [[r Hr]|(l & r & ->)].
      * by exists EmptyString, r.
      * by exists (String c l), r.
    + intros (l & r & H). destruct l as [|c' l]; simpl in H.
      * left. by exists r.
      * injection H as -> ->. right. by exists l, r.
Qed.

(** X8.  What [getLinkedInUrl] returns is the empty string or an address
    that holds [linkedin.com/company/]: the [href] of the first anchor of
    the fetched page with such an address. *)
Theorem getLinkedInUrl_is_company_link search companyName :
  getLinkedInUrl search companyName = EmptyString \/
  (includes (getLinkedInUrl search companyName) "linkedin.com/company/"
     = true /\
   exists page before after,
     (fetchWithRetry (search (searchUrl companyName))
        (searchUrl companyName) 0 MAX_RETRIES).2 = Normal page /\
     page = before ++ getLinkedInUrl search companyName :: after /\
     Forall (fun href => includes href "linkedin.com/company/" = false)
       before).
Proof.
  unfold getLinkedInUrl.
  destruct (fetchWithRetry _ _ _ _).2 as [page|error]; [|by left].
  unfold firstCompanyLink.
  assert (forall found,
    List.find (fun href => includes href "linkedin.com/company/") page
      = Some found ->
    includes found "linkedin.com/company/" = true /\
    exists before after,
      page = before ++ found :: after /\
      Forall (fun href => includes href "linkedin.com/company/" = false)
        before) as Hfind.
  { induction page as [|h page IH]; intros found; simpl; [done|].
    destruct (includes h "linkedin.com/company/") eqn:Eh.
    - intros [= <-]. split; [done|]. by exists [], page.
    - intros Hf. destruct (IH found Hf) as (Hin & before & after & -> & Hb).
      split; [done|]. exists (h :: before), after. split; [done|].
      by constructor. }
  destruct (List.find _ page) as [found|] eqn:Ef; simpl; [|by left].
  destruct (Hfind found eq_refl) as (Hin & before & after & Hpage & Hb).
  destruct found as [|c found]; simpl; [by left|right].
  split; [done|]. by exists page, before, after.
Qed.

End LookupProps.

(** ** Scrapers: what every returned record looks like *)

Section ReturnedRecords.

Import Scraper.
Local Open Scope list_scope.

Implicit Types (env : Env) (batch : string) (P : Startup -> Prop).

Lemma keepFirst_elem lower seen l s : s ∈ keepFirst lower seen l -> s ∈ l.
Proof.
  revert seen. induction l as [|x l IH]; intros seen; simpl; [done|].
  destruct (bool_decide _).
  - intros H. apply list_elem_of_further. by eapply IH.
  - intros H. apply elem_of_cons in H as [->|H]; [apply list_elem_of_here|].
    apply list_elem_of_further. by eapply IH.
Qed.

(** Records that the company loop adds are valid candidates of the
    page. *)
Lemma ycCompanies_Forall env batch P cs st :
  (forall c s, ycCandidate env batch c = Some s ->
               validateCompany s = true -> P s) ->
  Forall P (YC.startups st) ->
  Forall P (YC.startups (foldl (ycCompany env batch) st cs)).
Proof.
  intros HP Hst.
  rewrite (proj1 (ycCompanies_keepFirst env batch cs st)).
  apply Forall_app. split; [done|]. apply Forall_forall. intros s Hs.
  apply keepFirst_elem, list_elem_of_In, filter_In in Hs as [Hs Hv].
  apply list_elem_of_In, list_elem_of_omap in Hs as (c & _ & Hc).
  by apply (HP c).
Qed.

Lemma ycPage_Forall env batch P st :
  (forall c s, ycCandidate env batch c = Some s ->
               validateCompany s = true -> P s) ->
  Forall P (YC.startups st) ->
  Forall P (YC.startups (ycPage env batch st)).
Proof.
  intros HP Hst. unfold ycPage.
  destruct (directory env batch _ _) as [[|data]|]; [done| |done].
  destruct (companies data) as [|[|e entries]|]; try done.
  rewrite ycCompanies_reached.
  pose proof (ycCompanies_Forall env batch P (reached (e :: entries)) st
                HP Hst).
  by destruct (raises _).
Qed.

Lemma ycLoop_Forall env batch P fuel : forall st st',
  (forall c s, ycCandidate env batch c = Some s ->
               validateCompany s = true -> P s) ->
  Forall P (YC.startups st) ->
  ycLoop fuel env batch st = Some st' ->
  Forall P (YC.startups st').
Proof.
  induction fuel as [|fuel IH]; intros st st' HP Hst; simpl;
    destruct (ycContinue st); try done; try by intros [= <-].
  apply IH; [done|]. by apply ycPage_Forall.
Qed.

Lemma scrapeYCombinator_Forall env P fuel l :
  (forall c s, ycCandidate env "W24" c = Some s ->
               validateCompany s = true -> P s) ->
  scrapeYCombinator fuel env = Some (Normal l) ->
  Forall P l.
Proof.
  intros HP. unfold scrapeYCombinator, YC_BATCHES. cbn [batchLoop].
  destruct (ycLoop fuel env "W24" (ycCohort ycInit)) as [st|] eqn:E; [|done].
  intros [= <-]. eapply ycLoop_Forall; [exact HP| |exact E]. constructor.
Qed.

Lemma a16zItems_Forall env P items st :
  (forall item s, a16zCandidate env item = Some s ->
                  validateCompany s = true -> P s) ->
  Forall P (A16z.startups st) ->
  Forall P (A16z.startups (foldl (a16zItem env) st items)).
Proof.
  intros HP Hst.
  rewrite (proj1 (a16zItems_keepFirst env items st)).
  apply Forall_app. split; [done|]. apply Forall_forall. intros s Hs.
  apply keepFirst_elem, list_elem_of_In, filter_In in Hs as [Hs Hv].
  apply list_elem_of_In, list_elem_of_omap in Hs as (c & _ & Hc).
  by apply (HP c).
Qed.

Lemma selectorLoop_Forall env P doc sels : forall st,
  (forall item s, a16zCandidate env item = Some s ->
                  validateCompany s = true -> P s) ->
  Forall P (A16z.startups st) ->
  Forall P (A16z.startups (selectorLoop env doc sels st)).
Proof.
  induction sels as [|sel sels IH]; intros st HP Hst; [done|].
  cbn [selectorLoop].
  destruct (0 <? length (doc sel))%nat; [|by apply IH].
  match goal with |- context [foldl ?f ?s ?i] =>
    assert (Forall P (A16z.startups (foldl f s i))) as H
      by (by apply a16zItems_Forall) end.
  destruct (0 <? length _)%nat; [done|]. by apply IH.
Qed.

Lemma a16zRun_Forall env P :
  (forall item s, a16zCandidate env item = Some s ->
                  validateCompany s = true -> P s) ->
  Forall P (A16z.startups (a16zRun env)).
Proof.
  intros HP. unfold a16zRun, urls. cbn [urlLoop].
  destruct (portfolio env _) as [doc|]; [|constructor].
  assert (Forall P (A16z.startups
                      (selectorLoop env doc selectors A16z.init))) as H
    by (apply selectorLoop_Forall; [done|constructor]).
  by destruct (0 <? length _)%nat.
Qed.

(** *** [trim] applied twice *)

Section DroppingProps.

Variable w1 : ascii -> bool.
Variable w2 : ascii -> ascii -> bool.
Variable w3 : ascii -> ascii -> ascii -> bool.

Lemma dropLeading_eq (l : list ascii) :
  dropLeading w1 w2 w3 l =
    match l with
    | a :: t =>
        if w1 a then dropLeading w1 w2 w3 t
        else
          match t with
          | b :: t' =>
              if w2 a b then dropLeading w1 w2 w3 t'
              else
                match t' with
                | c :: t'' =>
                    if w3 a b c then dropLeading w1 w2 w3 t'' else l
                | [] => l
                end
          | [] => l
          end
    | [] => []
    end.
Proof. by destruct l. Qed.

(** What is left begins with no recognised character, and is the end of
    the list. *)
Lemma dropLeading_spec (l : list ascii) :
  leads w1 w2 w3 (dropLeading w1 w2 w3 l) = false /\
  exists p, l = p ++ dropLeading w1 w2 w3 l.
Proof.
  assert (forall n (l : list ascii), length l <= n ->
    leads w1 w2 w3 (dropLeading w1 w2 w3 l) = false /\
    exists p, l = p ++ dropLeading w1 w2 w3 l) as H.
  { clear l. induction n as [|n IH]; intros l Hn.
    - destruct l; [|simpl in Hn; lia]. split; [done|]. by exists [].
    - rewrite (dropLeading_eq l).
      destruct l as [|a t]; [split; [done|]; by exists []|].
      simpl in Hn. destruct (w1 a) eqn:E1.
      { destruct (IH t ltac:(lia)) as [H1 [p Hp]].
        split; [done|]. exists (a :: p). simpl. by rewrite <- Hp. }
      destruct t as [|b t'].
      { split; [simpl; by rewrite E1|]. by exists []. }
      simpl in Hn. destruct (w2 a b) eqn:E2.
      { destruct (IH t' ltac:(lia)) as [H1 [p Hp]].
        split; [done|]. exists (a :: b :: p). simpl. by rewrite <- Hp. }
      destruct t' as [|c t''].
      { split; [simpl; by rewrite E1, E2|]. by exists []. }
      simpl in Hn. destruct (w3 a b c) eqn:E3.
      { destruct (IH t'' ltac:(lia)) as [H1 [p Hp]].
        split; [done|]. exists (a :: b :: c :: p). simpl. by rewrite <- Hp. }
      split; [simpl; by rewrite E1, E2, E3|]. by exists []. }
  by apply (H (length l)).
Qed.

Lemma dropLeading_id (l : list ascii) :
  leads w1 w2 w3 l = false -> dropLeading w1 w2 w3 l = l.
Proof.
  destruct l as [|a [|b [|c t]]]; simpl; try done.
  - by intros ->%orb_false_iff%proj1.
  - intros [-> [-> _]%orb_false_iff]%orb_false_iff. done.
  - intros [-> [-> ->]%orb_false_iff]%orb_false_iff. done.
Qed.

Lemma leads_app (p r : list ascii) :
  leads w1 w2 w3 p = true -> leads w1 w2 w3 (p ++ r) = true.
Proof.
  destruct p as [|a [|b [|c t]]]; simpl; try done.
  - rewrite orb_false_r. by intros ->.
  - rewrite orb_false_r. intros [->| ->]%orb_true_iff; [done|].
    by rewrite orb_true_r.
Qed.

End DroppingProps.

Lemma trimStartBytes_leads l :
  leads space1 space2 space3 (trimStartBytes l) = false.
Proof. apply dropLeading_spec. Qed.

Lemma trimEndBytes_prefix l : exists r, l = trimEndBytes l ++ r.
Proof.
  unfold trimEndBytes.
  destruct (dropLeading_spec space1 (fun a b => space2 b a)
              (fun a b c => space3 c b a) (rev l)) as [_ [p Hp]].
  exists (rev p). rewrite <- rev_app_distr, <- Hp. by rewrite rev_involutive.
Qed.

Lemma trimEndBytes_idem l : trimEndBytes (trimEndBytes l) = trimEndBytes l.
Proof.
  unfold trimEndBytes. rewrite rev_involutive. f_equal.
  apply dropLeading_id, dropLeading_spec.
Qed.

Lemma trimBytes_idem l :
  trimEndBytes (trimStartBytes (trimEndBytes (trimStartBytes l))) =
    trimEndBytes (trimStartBytes l).
Proof.
  set (y := trimStartBytes l).
  assert (leads space1 space2 space3 (trimEndBytes y) = false) as Hno.
  { destruct (trimEndBytes_prefix y) as [r Hr].
    destruct (leads _ _ _ (trimEndBytes y)) eqn:E; [|done].
    pose proof (leads_app _ _ _ _ r E) as H. rewrite <- Hr in H.
    unfold y in H. by rewrite trimStartBytes_leads in H. }
  unfold trimStartBytes at 1. rewrite dropLeading_id by done.
  apply trimEndBytes_idem.
Qed.

Lemma trim_idem s : trim (trim s) = trim s.
Proof.
  unfold trim. rewrite list_ascii_of_string_of_list_ascii.
  by rewrite trimBytes_idem.
Qed.

(** *** The records *)

(** A record that passes [validateCompany] has a name whose trimmed form
    is at least two UTF-16 units long. *)
Lemma validateCompany_name s :
  validateCompany s = true ->
  exists n, name s = Some n /\ 2 <= stringLength (trim n).
Proof.
  unfold validateCompany. destruct (name s) as [n|]; [|done].
  destruct (negb (truthy n) || _) eqn:E; [done|]. intros _.
  apply orb_false_iff in E as [_ E]. apply Nat.ltb_ge in E. by exists n.
Qed.

(** X9.  Every record that [scrapeStartups] returns passes [validateCompany]:
    it has a name, and the name without the white space around it has a
    [length] of at least two. *)
Theorem scraped_records_are_valid env fuel l :
  scrapeStartups fuel env = Some (Normal l) ->
  Forall (fun s =>
            validateCompany s = true /\
            exists n, name s = Some n /\ 2 <= stringLength (trim n)) l.
Proof.
  unfold scrapeStartups.
  destruct (scrapeYCombinator fuel env) as [[yc|e]|] eqn:Ey; [| |done].
  - unfold scrapeA16z. intros [= <-]. apply Forall_app. split.
    + apply a16zRun_Forall. intros item s _ Hv.
      split; [done|]. by apply validateCompany_name.
    + eapply scrapeYCombinator_Forall; [|exact Ey]. intros c s _ Hv.
      split; [done|]. by apply validateCompany_name.
  - unfold scrapeA16z. discriminate.
Qed.

(** X10.  Every record of the portfolio scraper has a name without white space
    around it and with a [length] of at least two, the website
    [not found] and the source [a16z]. *)
Theorem a16z_records_shape env :
  Forall (fun s =>
            (exists n, name s = Some n /\ trim n = n /\
                       2 <= stringLength n) /\
            website s = Some "not found"%string /\
            source s = Some "a16z"%string)
    (A16z.startups (a16zRun env)).
Proof.
  apply a16zRun_Forall. intros item s Hc Hv.
  unfold a16zCandidate in Hc.
  destruct (truthy (extractName item)); [|done].
  destruct (linkedIn env _) as [url|]; [|done].
  injection Hc as <-. split_and!; [|done|done].
  eexists. split; [reflexivity|].
  destruct (validateCompany_name _ Hv) as (n & [= <-] & Hlen).
  rewrite trim_idem in Hlen. split; [apply trim_idem|done].
Qed.

(** X11.  Every record of the directory scraper carries the source of its
    batch, and neither its website nor its LinkedIn address is empty:
    where the directory or the look-up gave none, it reads [not found]. *)
Theorem yc_records_shape env fuel l :
  scrapeYCombinator fuel env = Some (Normal l) ->
  Forall (fun s =>
            source s = Some "YC W24"%string /\
            (exists w, website s = Some w /\ w <> EmptyString) /\
            (exists u, linkedin_url s = Some u /\ u <> EmptyString)) l.
Proof.
  apply scrapeYCombinator_Forall. intros c s Hc _.
  unfold ycCandidate in Hc.
  destruct (company_name c) as [cname|]; [|done].
  destruct (truthy cname); [|done].
  destruct (linkedIn env cname) as [url|]; [|done].
  injection Hc as <-. simpl. split_and!; [done| |].
  - eexists. split; [reflexivity|].
    destruct (company_website c) as [[|a w]|]; simpl; done.
  - eexists. split; [reflexivity|]. by destruct url.
Qed.

End ReturnedRecords.

(** ** Scrapers with [getLinkedInUrl] as the look-up *)

Section WithGetLinkedInUrl.

Import Scraper Lookup.
Local Open Scope list_scope.

Implicit Types (env : Env) (batch : string).

(** The outside world in which the look-up of the item loops is
    [getLinkedInUrl] over the search pages [search]. *)
Definition lookingUp
    (lower : string -> string)
    (search : string -> nat -> Completion Error SearchPage)
    (pages : string -> Completion Error Document)
    (api : string -> nat -> nat -> Completion Error Body) : Env :=
  {| toLowerCase := lower;
     portfolio := pages;
     linkedIn := fun companyName =>
       Normal (getLinkedInUrl search companyName);
     directory := api |}.

(** A look-up that does not throw, as [getLinkedInUrl] never does, keeps
    the company loop from counting an error: the catch branch of the
    per-company [try] is not taken. *)
Lemma company_loop_counts_no_error lower search pages api batch cs :
  forall st,
    YC.consecutiveErrors
      (foldl (ycCompany (lookingUp lower search pages api) batch) st cs)
    = YC.consecutiveErrors st.
Proof.
  intros st. apply ycCompanies_errors. intros cname. by eexists.
Qed.

(** X12.  With [getLinkedInUrl] as the look-up, the LinkedIn address of a
    record of the directory scraper is [not found] or holds
    [linkedin.com/company/]; that of a record of the portfolio scraper is
    empty or holds [linkedin.com/company/]. *)
Theorem linkedin_addresses_of_records lower search pages api fuel l :
  scrapeYCombinator fuel (lookingUp lower search pages api)
    = Some (Normal l) ->
  Forall (fun s =>
            exists u, linkedin_url s = Some u /\
              (u = "not found"%string \/
               includes u "linkedin.com/company/" = true)) l /\
  Forall (fun s =>
            exists u, linkedin_url s = Some u /\
              (u = EmptyString \/
               includes u "linkedin.com/company/" = true))
    (A16z.startups (a16zRun (lookingUp lower search pages api))).
Proof.
  intros Hyc. split.
  - eapply scrapeYCombinator_Forall; [|exact Hyc]. intros c s Hc _.
    unfold ycCandidate in Hc.
    destruct (company_name c) as [cname|]; [|done].
    destruct (truthy cname); [|done]. simpl in Hc. injection Hc as <-.
    eexists. split; [reflexivity|]. simpl.
    destruct (getLinkedInUrl_is_company_link search cname) as [->|[Hin _]];
      [by left|].
    destruct (getLinkedInUrl search cname); [by left|by right].
  - apply a16zRun_Forall. intros item s Hc _.
    unfold a16zCandidate in Hc.
    destruct (truthy (extractName item)); [|done].
    simpl in Hc. injection Hc as <-.
    eexists. split; [reflexivity|].
    destruct (getLinkedInUrl_is_company_link search
                (trim (replaceNoise (extractName item)))) as [->|[Hin _]];
      [by left|by right].
Qed.

End WithGetLinkedInUrl.

(** ** Scrapers: how results accumulate *)

Section Accumulation.

Import Scraper.
Local Open Scope list_scope.

Implicit Types (env : Env) (batch : string).



(** From a state without results, the selector loop returns no record,
    or the valid records, first of each name, of the elements of one
    selector: it never mixes the elements of two selectors. *)
Lemma selectorLoop_one_selector env doc sels : forall st,
  A16z.startups st = [] -> A16z.processedNames st = ∅ ->
  A16z.startups (selectorLoop env doc sels st) = [] \/
  exists sel,
    sel ∈ sels /\ doc sel <> [] /\
    A16z.startups (selectorLoop env doc sels st) =
      validUnique (toLowerCase env) (omap (a16zCandidate env) (doc sel)).
Proof.
  induction sels as [|sel sels IH]; intros st Hst Hseen; [by left|].
  cbn [selectorLoop].
  set (st1 := {| A16z.startups := A16z.startups st;
                 A16z.processedNames := A16z.processedNames st;
                 A16z.tried := A16z.tried st ++ [sel];
                 A16z.processed := A16z.processed st |}).
  assert (forall st2,
    A16z.startups st2 = [] -> A16z.processedNames st2 = ∅ ->
    A16z.startups (selectorLoop env doc sels st2) = [] \/
    exists sel0,
      sel0 ∈ sel :: sels /\ doc sel0 <> [] /\
      A16z.startups (selectorLoop env doc sels st2) =
        validUnique (toLowerCase env) (omap (a16zCandidate env) (doc sel0))) as Hrest.
  { intros st2 H1 H2. destruct (IH st2 H1 H2) as [?|(s0 & ? & ? & ?)];
      [by left|right]. exists s0. split; [by apply list_elem_of_further|done]. }
  destruct (0 <? length (doc sel))%nat eqn:El; [|by apply Hrest].
  destruct (a16zItems_keepFirst env (doc sel) st1) as [Hs Hn].
  change (A16z.startups st1) with (A16z.startups st) in Hs.
  change (A16z.processedNames st1) with (A16z.processedNames st) in Hs, Hn.
  rewrite Hst, Hseen in Hs. rewrite Hseen in Hn. simpl in Hs.
  fold (validUnique (toLowerCase env)
          (omap (a16zCandidate env) (doc sel))) in Hs, Hn.
  destruct (0 <? length (A16z.startups _))%nat eqn:Eacc.
  - right. exists sel. split; [apply list_elem_of_here|].
    split; [|done]. intros E. by rewrite E in El.
  - apply Hrest.
    + destruct (A16z.startups (foldl _ st1 _)); [done|discriminate Eacc].
    + rewrite Hn. rewrite <- Hs.
      destruct (A16z.startups (foldl _ st1 _)); [|discriminate Eacc].
      simpl. set_solver.
Qed.

(** X14.  When the portfolio page is fetched, the portfolio scraper returns no
    record, or the valid records, first of each name, of the elements that
    one of its selectors matches: the result never mixes the elements of
    two selectors. *)
Theorem a16z_results_come_from_one_selector env doc :
  portfolio env "https://a16z.com/portfolio/" = Normal doc ->
  A16z.startups (a16zRun env) = [] \/
  exists sel,
    sel ∈ selectors /\ doc sel <> [] /\
    A16z.startups (a16zRun env) =
      validUnique (toLowerCase env) (omap (a16zCandidate env) (doc sel)).
Proof.
  intros Hdoc. unfold a16zRun, urls.
  rewrite (urlLoop_single env _ selectors A16z.init doc Hdoc).
  by apply selectorLoop_one_selector.
Qed.

(** X15.  A portfolio page that cannot be fetched is no error of the scrape:
    the portfolio scraper queries no selector and returns no record, and
    the aggregator returns what the directory scraper returns. *)
Theorem failed_portfolio_fetch_is_absorbed env fuel error :
  portfolio env "https://a16z.com/portfolio/" = Throw error ->
  a16zRun env = A16z.init /\
  scrapeA16z env = Normal [] /\
  scrapeStartups fuel env = scrapeYCombinator fuel env.
Proof.
  intros Hp.
  assert (a16zRun env = A16z.init) as Hrun
    by (unfold a16zRun, urls; cbn [urlLoop]; by rewrite Hp).
  split_and!; [done|unfold scrapeA16z; by rewrite Hrun|].
  unfold scrapeStartups, scrapeA16z. rewrite Hrun.
  destruct (scrapeYCombinator fuel env) as [[yc|e]|]; done.
Qed.

End Accumulation.

(** ** Ingestion endpoint: the rows it writes *)

Section WrittenRows.

Import Scraper Ingest.
Local Open Scope list_scope.

(** X16.  For the records that the scrape returns, [GET] never falls back on
    [Unknown]: the row of a record carries the record's own name, and
    neither its website nor its LinkedIn address is empty. *)
Theorem rows_keep_scraped_names env fuel clock results i startup :
  scrapeStartups fuel env = Some (Normal results) ->
  results !! i = Some startup ->
  name startup = Some (row_name (toInsert clock i startup)) /\
  2 <= stringLength (trim (row_name (toInsert clock i startup))) /\
  row_website (toInsert clock i startup) <> EmptyString /\
  row_linkedin_url (toInsert clock i startup) <> EmptyString.
Proof.
  intros Hscrape Hi.
  pose proof (scraped_records_are_valid env fuel results Hscrape) as Hall.
  rewrite Forall_forall in Hall.
  destruct (Hall startup) as (_ & n & Hn & Hlen);
    [by eapply list_elem_of_lookup_2|].
  unfold toInsert. simpl. rewrite Hn. simpl.
  assert (truthy n = true) as ->
    by (destruct n; [simpl in Hlen; lia|done]).
  split_and!; [done|done| |].
  - destruct (website startup) as [[|a w]|]; simpl; done.
  - destruct (linkedin_url startup) as [[|a w]|]; simpl; done.
Qed.

Lemma rows_keep_scraped_names_witness :
  name acmeYC = Some (row_name (toInsert noon 1 acmeYC)) /\
  2 <= stringLength (trim (row_name (toInsert noon 1 acmeYC))) /\
  row_website (toInsert noon 1 acmeYC) <> EmptyString /\
  row_linkedin_url (toInsert noon 1 acmeYC) <> EmptyString.
Proof.
  apply (rows_keep_scraped_names bothListAcme 1 noon [acmeA16z; acmeYC] 1
           acmeYC bothListAcme_scraped).
  reflexivity.
Defined.

End WrittenRows.

(** ** The page ([Home] of [page.tsx]) *)

Module HomePage.

(** The state of the component: [startups], [loading], [error] and
    [isRefreshing]. *)
Record State (A : Type) : Type := mkState {
  startups : list A;
  loading : bool;
  error : option string;
  isRefreshing : bool
}.
Arguments mkState {A}.
Arguments startups {A}.
Arguments loading {A}.
Arguments error {A}.
Arguments isRefreshing {A}.

(** [useState] initial values. *)
Definition initial {A} : State A :=
  {| startups := []; loading := true; error := None;
     isRefreshing := false |}.

(** What [supabase.from("startups").select("*").order(...)] answers:
    [{ data, error }]. *)
Record Selected (A : Type) : Type := mkSelected {
  data : option (list A);
  selectError : option Error
}.
Arguments mkSelected {A}.
Arguments data {A}.
Arguments selectError {A}.

(** [fetchStartups()] *)
Definition fetchStartups {A} (answer : Selected A) (st : State A)
    : State A :=
  let st :=
    match selectError answer with
    | Some _ =>
        {| startups := startups st; loading := loading st;
           error := Some "Failed to fetch startups";
           isRefreshing := isRefreshing st |}
    | None =>
        {| startups := default [] (data answer); loading := loading st;
           error := error st; isRefreshing := isRefreshing st |}
    end in
  {| startups := startups st; loading := false; error := error st;
     isRefreshing := isRefreshing st |}.

(** The response of [fetch("/api/scrape")]: [response.ok], and the
    completion of [response.json()], a JSON object of which the page
    reads the field [error]. *)
Record Fetched : Type := mkFetched {
  ok : bool;
  json : Completion Error (option string)
}.

(** [err instanceof Error ? err.message : "Failed to refresh data"] *)
Definition shown (err : Error) : string :=
  if instanceofError err then message err else "Failed to refresh data".

(** [handleRefresh()], to its end. *)
Definition handleRefresh {A} (fetched : Completion Error Fetched)
    (answer : Selected A) (st : State A) : State A :=
  let st :=
    {| startups := startups st; loading := loading st; error := None;
       isRefreshing := true |} in
  let failWith (msg : string) :=
    {| startups := startups st; loading := loading st; error := Some msg;
       isRefreshing := isRefreshing st |} in
  let st :=
    match fetched with
    | Throw err => failWith (shown err)
    | Normal response =>
        match json response with
        | Throw err => failWith (shown err)
        | Normal body =>
            if negb (ok response) then
              (* throw new Error(data.error || "Failed to refresh data") *)
              failWith (orElse body "Failed to refresh data")
            else fetchStartups answer st
        end
    end in
  {| startups := startups st; loading := loading st; error := error st;
     isRefreshing := false |}.

(** What [fetch] makes of the [NextResponse.json(body, { status })] of
    [GET]: [ok] for a status from 200 to 299, and the body. *)
Definition served (response : Ingest.Response) : Fetched :=
  {| ok := (200 <=? Ingest.status response)%nat &&
           (Ingest.status response <=? 299)%nat;
     json :=
       Normal match Ingest.body response with
              | Ingest.Failure error _ => Some error
              | Ingest.Success _ _ _ => None
              end |}.

End HomePage.

Section HomePageProps.

Import HomePage.
Local Open Scope list_scope.

Context {A : Type}.
Implicit Types (st : State A) (answer : Selected A)
  (fetched : Completion Error Fetched).

(** Every step of the refresh went well: the request was answered, the
    body was read, the status was a success and the rows were read. *)
Definition allWentWell fetched answer : Prop :=
  exists response body,
    fetched = Normal response /\ json response = Normal body /\
    ok response = true /\ selectError answer = None.

(** X17.  At the end of [handleRefresh] the page is no longer refreshing.  It
    shows no error exactly when every step went well, and then it shows
    the rows just read; in every other case the list it showed before is
    still there. *)
Theorem refresh_shows_error_unless_all_went_well fetched answer st :
  let st' := handleRefresh fetched answer st in
  isRefreshing st' = false /\
  (error st' = None <-> allWentWell fetched answer) /\
  (allWentWell fetched answer ->
   startups st' = default [] (data answer) /\ loading st' = false) /\
  (~ allWentWell fetched answer ->
   startups st' = startups st /\ exists msg, error st' = Some msg).
Proof.
  unfold handleRefresh, allWentWell.
  destruct fetched as [[okay [body|err]]|err]; simpl.
  - destruct okay; simpl.
    + unfold fetchStartups.
      destruct (selectError answer) as [e|] eqn:Es; simpl.
      * split_and!; [done| |intros (?&?&?&?&?&?); congruence|].
        -- split; [done|]. intros (?&?&?&?&?&?). congruence.
        -- intros _. split; [done|by eexists].
      * split_and!; [done| |done|].
        -- split; [|done]. intros _. by exists (mkFetched true (Normal body)), body.
        -- intros H. destruct H.
           by exists (mkFetched true (Normal body)), body.
    + split_and!; [done| |intros (?&?&[= <-]&?&?&?); done|].
      * split; [done|]. intros (?&?&[= <-]&?&?&?). done.
      * intros _. split; [done|by eexists].
  - split_and!; [done| |intros (?&?&[= <-]&?&?&?); done|].
    + split; [done|]. intros (?&?&[= <-]&?&?&?). done.
    + intros _. split; [done|by eexists].
  - split_and!; [done| |intros (?&?&?&?&?&?); done|].
    + split; [done|]. intros (?&?&?&?&?&?). done.
    + intros _. split; [done|by eexists].
Qed.

End HomePageProps.

(** ** The page and the endpoint together *)

Section RefreshAfterGET.

Import Scraper Ingest HomePage.
Local Open Scope list_scope.

(** [GET] answers with status 200 and a summary, or with status 500 and
    the error [Operation failed]. *)
Lemma GET_response_shape (db : Storage) fuel env clock
    (store store' : Store db) response :
  GET db fuel env clock store = Some (store', response) ->
  (exists n t m,
     body response = Success n t m /\ Ingest.status response = 200) \/
  (exists details,
     body response = Failure "Operation failed" details /\
     Ingest.status response = 500).
Proof.
  unfold GET.
  destruct (scrapeStartups fuel env) as [[results|e]|]; [| |done].
  - destruct (if (0 <? length results)%nat then _ else _) as [s|e].
    + intros [= <- <-]. left. by eexists _, _, _.
    + intros [= <- <-]. right. by eexists.
  - intros [= <- <-]. right. by eexists.
Qed.

(** X18.  A refresh whose request is answered by [GET]: when the ingestion
    failed, the page shows [Operation failed] and keeps its list; when it
    succeeded, the page reads the rows, shows them if the read went well
    and shows [Failed to fetch startups] over the old list if not. *)
Theorem refresh_after_ingestion {A} (db : Storage) fuel env clock
    (store store' : Store db) response
    (answer : Selected A) (st : State A) :
  GET db fuel env clock store = Some (store', response) ->
  let st' := handleRefresh (Normal (served response)) answer st in
  (Ingest.status response = 500 ->
   error st' = Some "Operation failed"%string /\
   startups st' = startups st) /\
  (Ingest.status response = 200 -> selectError answer = None ->
   error st' = None /\ startups st' = default [] (data answer)) /\
  (Ingest.status response = 200 -> selectError answer <> None ->
   error st' = Some "Failed to fetch startups"%string /\
   startups st' = startups st).
Proof.
  intros HGET.
  destruct (GET_response_shape db fuel env clock store store' response HGET)
    as [(n & t & m & Hb & Hs)|(d & Hb & Hs)];
    unfold handleRefresh, served; rewrite Hb, Hs; simpl.
  - unfold fetchStartups.
    destruct (selectError answer); simpl; split_and!; try done;
      intros _ H; by destruct H.
  - split_and!; done.
Qed.

(** A store whose upsert is refused. *)
Definition refusing : Storage :=
  {| Store := unit;
     upsert := fun _ _ => Throw notFound;
     count := fun _ => 0 |}.

Lemma refresh_after_ingestion_witness :
  exists response,
    GET refusing 1 bothListAcme noon tt = Some (tt, response) /\
    let st' :=
      handleRefresh (Normal (served response))
        (mkSelected (Some [1; 2]) None)
        (mkState [7] false None false) in
    error st' = Some "Operation failed"%string /\ startups st' = [7].
Proof.
  destruct (GET refusing 1 bothListAcme noon tt) as [[[] response]|] eqn:E;
    [|vm_compute in E; discriminate E].
  exists response. split; [reflexivity|].
  apply (refresh_after_ingestion refusing 1 bothListAcme noon tt tt response
           (mkSelected (Some [1; 2]) None) (mkState [7] false None false) E).
  vm_compute in E. injection E as <-. reflexivity.
Defined.

End RefreshAfterGET.

(** ** The scraper behind ScrapingBee (the other [scraper.ts]) *)

Module Bee.

Import Scraper Lookup.

(** [/[^a-z0-9]/]: the character is replaced by a hyphen. *)
Definition slugChar (c : ascii) : bool :=
  let n := Ascii.nat_of_ascii c in
  ((97 <=? n)%nat && (n <=? 122)%nat) || ((48 <=? n)%nat && (n <=? 57)%nat).

Fixpoint hyphens (n : nat) : string :=
  match n with
  | O => EmptyString
  | S n' => String "-"%char (hyphens n')
  end.

(** [s.replace(/[^a-z0-9]/g, "-")]: every UTF-16 unit that is no
    lower-case letter or digit becomes a hyphen.  The bytes of a
    character outside the ASCII range stand for one unit, or for two. *)
Fixpoint hyphenate (s : string) : string :=
  match s with
  | EmptyString => EmptyString
  | String c t =>
      if slugChar c then String c (hyphenate t)
      else hyphens (units c) ++ hyphenate t
  end.

(** [getLinkedInUrl(companyName)]: the address is built, not looked up.
    [lower] is [String.prototype.toLowerCase] of the platform, here and
    below. *)
Definition getLinkedInUrl (lower : string -> string) (companyName : string)
    : string :=
  "https://www.linkedin.com/company/" ++
  encodeURIComponent (hyphenate (lower companyName)).

(** An element of the portfolio page, by what this scraper reads of it:
    the attributes [data-filter-by], [data-investment-date], [data-name],
    [data-secondary-name] and [data-website], the texts of
    [.builder-title span], [h3] and [.company-name], and the [href] of the
    first [a] and of the first [.website-link]. *)
Record Item : Type := mkItem {
  data_filter_by : option string;
  data_investment_date : option string;
  data_name : option string;
  data_secondary_name : option string;
  builder_title : string;
  h3 : string;
  company_name_text : string;
  a_href : option string;
  data_website : option string;
  website_link_href : option string
}.

(** [a || b] where both may be [undefined]. *)
Definition orField (a : option string) (b : option string) : option string :=
  match a with
  | Some s => if truthy s then Some s else b
  | None => b
  end.

Definition filterBy (item : Item) : string :=
  orElse (data_filter_by item) EmptyString.

Definition investmentDate (item : Item) : string :=
  orElse (data_investment_date item) EmptyString.

Definition itemName (item : Item) : string :=
  trim (orElse (orField (data_name item)
                  (orField (data_secondary_name item)
                     (orField (Some (builder_title item))
                        (orField (Some (h3 item))
                           (Some (company_name_text item))))))
          EmptyString).

Definition itemWebsite (item : Item) : string :=
  trim (orElse (orField (a_href item)
                  (orField (data_website item) (website_link_href item)))
          "not found").

(** [isQ4_2024]; the last alternative is [/2024-(10|11|12)/.test(...)]. *)
Definition isQ4_2024 (item : Item) : bool :=
  includes (filterBy item) "2024" &&
  (includes (investmentDate item) "Q4 2024" ||
   includes (investmentDate item) "October 2024" ||
   includes (investmentDate item) "November 2024" ||
   includes (investmentDate item) "December 2024" ||
   (includes (investmentDate item) "2024-10" ||
    includes (investmentDate item) "2024-11" ||
    includes (investmentDate item) "2024-12")).

Definition isExit (lower : string -> string) (item : Item) : bool :=
  includes (lower (filterBy item)) "exit".

(** The body of [for (const item of portfolioItems)]. *)
Definition portfolioItem (lower : string -> string)
    (acc : list Startup * gset string) (item : Item)
    : list Startup * gset string :=
  let '(startups, processedNames) := acc in
  if negb (isQ4_2024 item) then acc
  else if isExit lower item then acc
  else if negb (truthy (itemName item)) then acc
  else if bool_decide (lower (itemName item) ∈ processedNames) then acc
  else
    let startup :=
      {| name := Some (itemName item);
         website :=
           Some (if String.eqb (itemWebsite item) "not found"
                 then "not found" else itemWebsite item);
         linkedin_url := Some (getLinkedInUrl lower (itemName item));
         source := None |} in
    if validateCompany startup then
      ((startups ++ [startup])%list,
       {[ lower (itemName item) ]} ∪ processedNames)
    else acc.

(** [scrapeA16z()]: [fetched] is the completion of
    [fetchWithScrapingBee], by the elements that the joined selectors
    match in the page; its error is thrown on. *)
Definition scrapeA16z (lower : string -> string)
    (fetched : Completion Error (list Item))
    : Completion Error (list Startup) :=
  match fetched with
  | Normal portfolioItems =>
      Normal (foldl (portfolioItem lower) ([], ∅) portfolioItems).1
  | Throw error => Throw error
  end.

(** [scrapeStartups()], given the completion of [scrapeYCombinator]. *)
Definition scrapeStartups (lower : string -> string)
    (fetched : Completion Error (list Item))
    (yc : Completion Error (list Startup))
    : Completion Error (list Startup) :=
  match scrapeA16z lower fetched, yc with
  | Normal a16zStartups, Normal ycStartups =>
      Normal (a16zStartups ++ ycStartups)%list
  | Throw error, _ => Throw error
  | _, Throw error => Throw error
  end.

End Bee.

Section BeeProps.

Import Scraper Lookup.
Local Open Scope list_scope.

Lemma append_assoc (a b c : string) :
  ((a ++ b) ++ c = a ++ (b ++ c))%string.
Proof.
  induction a as [|x a IH]; [done|].
  change (String x ((a ++ b) ++ c) = String x (a ++ (b ++ c)))%string.
  by rewrite IH.
Qed.

(** An occurrence inside an occurrence is an occurrence. *)
Lemma includes_trans s p q :
  includes s p = true -> includes p q = true -> includes s q = true.
Proof.
  rewrite !includes_spec. intros (l & r & ->) (l' & r' & ->).
  exists (l ++ l')%string, (r' ++ r)%string.
  by rewrite !append_assoc.
Qed.









Lemma slugChar_unit c : Bee.slugChar c = true -> units c = 1.
Proof.
  destruct c as [[] [] [] [] [] [] [] []]; vm_compute; congruence.
Qed.

Example hyphenate_samples :
  Bee.hyphenate "acme ai" = "acme-ai" /\
  Bee.hyphenate (eAcute ++ "cole 42") = "-cole-42" /\
  Bee.hyphenate ("go" ++ rocket) = "go--".
Proof. by split_and!. Qed.





(** What holds of the element a record was built from. *)
Definition builtFrom (lower : string -> string) (items : list Bee.Item)
    (s : Startup) : Prop :=
  exists item,
    item ∈ items /\
    includes (Bee.filterBy item) "2024" = true /\
    includes (Bee.investmentDate item) "2024" = true /\
    includes (lower (Bee.filterBy item)) "exit" = false /\
    name s = Some (Bee.itemName item) /\
    2 <= stringLength (Bee.itemName item) /\
    linkedin_url s = Some (Bee.getLinkedInUrl lower (Bee.itemName item)) /\
    source s = None.

Lemma isQ4_2024_year item :
  Bee.isQ4_2024 item = true ->
  includes (Bee.filterBy item) "2024" = true /\
  includes (Bee.investmentDate item) "2024" = true.
Proof.
  unfold Bee.isQ4_2024. intros [Hf Hd]%andb_true_iff. split; [done|].
  repeat (apply orb_true_iff in Hd as [Hd|Hd]);
    (eapply includes_trans; [exact Hd|vm_compute; reflexivity]).
Qed.

Lemma portfolioItem_inv lower items acc item :
  item ∈ items ->
  Forall (builtFrom lower items) acc.1 /\ Deduped lower acc.1 acc.2 ->
  Forall (builtFrom lower items) (Bee.portfolioItem lower acc item).1 /\
  Deduped lower (Bee.portfolioItem lower acc item).1
    (Bee.portfolioItem lower acc item).2.
Proof.
  intros Hin [Hall Hded]. destruct acc as [startups seen].
  unfold Bee.portfolioItem.
  destruct (Bee.isQ4_2024 item) eqn:Eq; simpl; [|done].
  destruct (Bee.isExit lower item) eqn:Ee; [done|].
  destruct (truthy (Bee.itemName item)) eqn:Et; simpl; [|done].
  case_bool_decide as Hseen; [done|].
  destruct (validateCompany _) eqn:Ev; [|done]. simpl. split.
  - apply Forall_app. split; [done|]. constructor; [|constructor].
    exists item. destruct (isQ4_2024_year item Eq) as [Hf Hd].
    split_and!; try done.
    destruct (validateCompany_name _ Ev) as (n & [= <-] & Hlen).
    unfold Bee.itemName in Hlen |- *. by rewrite trim_idem in Hlen.
  - exact (Deduped_push lower startups seen
             {| name := Some (Bee.itemName item);
                website :=
                  Some (if String.eqb (Bee.itemWebsite item) "not found"
                        then "not found"%string else Bee.itemWebsite item);
                linkedin_url :=
                  Some (Bee.getLinkedInUrl lower (Bee.itemName item));
                source := None |} Hded Hseen).
Qed.

Lemma portfolioItems_inv lower items : forall todo acc,
  (forall item, item ∈ todo -> item ∈ items) ->
  Forall (builtFrom lower items) acc.1 /\ Deduped lower acc.1 acc.2 ->
  Forall (builtFrom lower items)
    (foldl (Bee.portfolioItem lower) acc todo).1 /\
  Deduped lower (foldl (Bee.portfolioItem lower) acc todo).1
    (foldl (Bee.portfolioItem lower) acc todo).2.
Proof.
  induction todo as [|item todo IH]; intros acc Hsub Hacc; simpl; [done|].
  apply IH.
  - intros i Hi. apply Hsub. by apply list_elem_of_further.
  - apply portfolioItem_inv; [|done]. apply Hsub, list_elem_of_here.
Qed.

(** X20.  Every record of the ScrapingBee portfolio scraper was built from an
    element whose filter and investment date both mention 2024 and whose
    filter in lower case does not mention an exit; it carries the trimmed
    name of the element, with a [length] of at least two, and the address
    built for that name.  No two records have the same name in lower
    case. *)
Theorem bee_records_pass_the_filters (lower : string -> string) items l :
  Bee.scrapeA16z lower (Normal items) = Normal l ->
  Forall (builtFrom lower items) l /\ NoDup (nameKey lower <$> l).
Proof.
  unfold Bee.scrapeA16z. intros [= <-].
  destruct (portfolioItems_inv lower items items ([], ∅))
    as [Hall [Hnd _]];
    [done|split; [constructor|apply Deduped_empty]|].
  done.
Qed.

End BeeProps.

(** ** The endpoint over either scraper *)

Module Endpoint.

Import Scraper Ingest.

(** The body of [GET] after [await scrapeStartups()] has completed with
    [scraped]. *)
Definition respond (db : Storage)
    (scraped : Completion Error (list Startup)) (clock : nat -> string)
    (store : Store db) : Store db * Response :=
  match scraped with
  | Throw error => (store, failed error)
  | Normal results =>
      let written :=
        if (0 <? length results)%nat then
          let startupsToInsert := imap (toInsert clock) results in
          upsert db store startupsToInsert
        else Normal store in
      match written with
      | Throw upsertError => (store, failed upsertError)
      | Normal store' =>
          let totalCount := count db store' in
          (store',
           {| body :=
                Success (length results) totalCount
                  (if (length results =? 0)%nat
                   then "No new startups found"
                   else "Scrape completed successfully");
              status := 200 |})
      end
  end.

End Endpoint.

Section EitherScraper.

Import Scraper Ingest HomePage Endpoint.
Local Open Scope list_scope.

(** [GET] is [respond] on what [scrapeStartups] completes with. *)
Lemma GET_respond (db : Storage) fuel env clock (store : Store db) :
  GET db fuel env clock store =
    (fun scraped => respond db scraped clock store)
      <$> scrapeStartups fuel env.
Proof.
  unfold GET, respond.
  destruct (scrapeStartups fuel env) as [[results|e]|]; simpl; [|done|done].
  by destruct (if (0 <? length results)%nat then _ else _).
Qed.

(** X21.  In the ScrapingBee scraper a portfolio page that cannot be fetched
    fails the whole refresh: the portfolio scraper throws the error of the
    fetch, the aggregator throws it on although the directory scraper
    returned records, the endpoint answers 500 without writing anything,
    and the page shows [Operation failed]. *)
Theorem bee_failed_fetch_fails_the_refresh {A} (db : Storage)
    (lower : string -> string) error ycs clock (store : Store db)
    (answer : Selected A) (st : State A) :
  let scraped := Bee.scrapeStartups lower (Throw error) (Normal ycs) in
  let answered := respond db scraped clock store in
  scraped = Throw error /\
  answered.1 = store /\
  Ingest.status answered.2 = 500 /\
  body answered.2 =
    Failure "Operation failed"
      (if instanceofError error then message error else "Unknown error") /\
  HomePage.error (handleRefresh (Normal (served answered.2)) answer st)
    = Some "Operation failed"%string /\
  startups (handleRefresh (Normal (served answered.2)) answer st)
    = startups st.
Proof. by split_and!. Qed.

End EitherScraper.

(** ** Worked runs of the scrapers *)

Section ScraperRuns.

Import Scraper Lookup.
Local Open Scope list_scope.

Lemma scraped_records_are_valid_witness :
  Forall (fun s =>
            validateCompany s = true /\
            exists n, name s = Some n /\ 2 <= stringLength (trim n))
    [acmeA16z; acmeYC].
Proof.
  exact (scraped_records_are_valid bothListAcme 1 [acmeA16z; acmeYC]
           bothListAcme_scraped).
Defined.

Lemma bothListAcme_directory :
  scrapeYCombinator 1 bothListAcme = Some (Normal [acmeYC]).
Proof. vm_compute. reflexivity. Qed.

Lemma yc_records_shape_witness :
  Forall (fun s =>
            source s = Some "YC W24"%string /\
            (exists w, website s = Some w /\ w <> EmptyString) /\
            (exists u, linkedin_url s = Some u /\ u <> EmptyString))
    [acmeYC].
Proof.
  exact (yc_records_shape bothListAcme 1 [acmeYC] bothListAcme_directory).
Defined.

(** A search page whose second anchor leads to a company page. *)
Definition searchResults
    : string -> nat -> Completion Error SearchPage :=
  fun _ _ =>
    Normal [ "https://example.com/about";
             "https://www.linkedin.com/company/acme";
             "https://uk.linkedin.com/company/acme-uk" ].

Definition acmeListed : string -> nat -> nat -> Completion Error Body :=
  fun _ _ _ =>
    Normal (Data
      {| companies :=
           Entries [ Listing {| company_name := Some "Acme";
                                company_website :=
                                  Some "https://acme.test" |} ];
         next := false; nextPage := false |}).

Definition acmeFound : Startup :=
  {| name := Some "Acme"; website := Some "https://acme.test";
     linkedin_url := Some "https://www.linkedin.com/company/acme";
     source := Some "YC W24" |}.

Lemma acmeListed_scraped :
  scrapeYCombinator 1
    (lookingUp asciiLowerCase searchResults (fun _ => Throw notFound)
       acmeListed)
  = Some (Normal [acmeFound]).
Proof. vm_compute. reflexivity. Qed.

Lemma linkedin_addresses_of_records_witness :
  Forall (fun s =>
            exists u, linkedin_url s = Some u /\
              (u = "not found"%string \/
               includes u "linkedin.com/company/" = true)) [acmeFound] /\
  Forall (fun s =>
            exists u, linkedin_url s = Some u /\
              (u = EmptyString \/
               includes u "linkedin.com/company/" = true))
    (A16z.startups
       (a16zRun
          (lookingUp asciiLowerCase searchResults
             (fun _ => Throw notFound) acmeListed))).
Proof.
  exact (linkedin_addresses_of_records asciiLowerCase searchResults
           (fun _ => Throw notFound) acmeListed 1 [acmeFound]
           acmeListed_scraped).
Defined.


Lemma a16z_results_come_from_one_selector_witness :
  A16z.startups (a16zRun blankFirst) = [] \/
  exists sel,
    sel ∈ selectors /\ blankThenAcme sel <> [] /\
    A16z.startups (a16zRun blankFirst) =
      validUnique asciiLowerCase
        (omap (a16zCandidate blankFirst) (blankThenAcme sel)).
Proof.
  exact (a16z_results_come_from_one_selector blankFirst blankThenAcme
           eq_refl).
Defined.

Lemma failed_portfolio_fetch_is_absorbed_witness :
  a16zRun onePageThenDown = A16z.init /\
  scrapeA16z onePageThenDown = Normal [] /\
  scrapeStartups 4 onePageThenDown = scrapeYCombinator 4 onePageThenDown.
Proof.
  exact (failed_portfolio_fetch_is_absorbed onePageThenDown 4 notFound
           eq_refl).
Defined.

(** Four elements: a Q4 2024 investment, an exit of the same quarter,
    an investment of an earlier year, and the first investment again
    under a name that differs in case. *)
Definition invested (n filter date : string) : Bee.Item :=
  {| Bee.data_filter_by := Some filter;
     Bee.data_investment_date := Some date;
     Bee.data_name := Some n; Bee.data_secondary_name := None;
     Bee.builder_title := EmptyString; Bee.h3 := EmptyString;
     Bee.company_name_text := EmptyString;
     Bee.a_href := None; Bee.data_website := None;
     Bee.website_link_href := None |}.

Definition portfolio2024 : list Bee.Item :=
  [ invested " Acme AI " "2024 seed" "November 2024";
    invested "Bolt" "2024 Exit" "2024-12-01";
    invested "Cobalt" "2023 seed" "Q4 2023";
    invested "ACME AI" "2024 seed" "Q4 2024";
    invested "Dune" "2024 growth" "2024-10-15" ].

Definition acmeBuilt : Startup :=
  {| name := Some "Acme AI"; website := Some "not found";
     linkedin_url := Some "https://www.linkedin.com/company/acme-ai";
     source := None |}.

Definition duneBuilt : Startup :=
  {| name := Some "Dune"; website := Some "not found";
     linkedin_url := Some "https://www.linkedin.com/company/dune";
     source := None |}.

Lemma bee_records_pass_the_filters_witness :
  Bee.scrapeA16z asciiLowerCase (Normal portfolio2024) =
    Normal [acmeBuilt; duneBuilt] /\
  Forall (builtFrom asciiLowerCase portfolio2024) [acmeBuilt; duneBuilt] /\
  NoDup (nameKey asciiLowerCase <$> [acmeBuilt; duneBuilt]).
Proof.
  assert (Bee.scrapeA16z asciiLowerCase (Normal portfolio2024) =
          Normal [acmeBuilt; duneBuilt]) as E by (vm_compute; reflexivity).
  split; [exact E|].
  exact (bee_records_pass_the_filters asciiLowerCase portfolio2024
           [acmeBuilt; duneBuilt] E).
Defined.

End ScraperRuns.

(** ** Name cleaning and validation *)

Section NameCleaning.

Import Scraper Lookup.
Local Open Scope list_scope.

Lemma asciiLowerCase_app (a b : string) :
  asciiLowerCase (a ++ b)%string =
    (asciiLowerCase a ++ asciiLowerCase b)%string.
Proof.
  induction a as [|x a IH]; [done|].
  change (String (lowerAscii x) (asciiLowerCase (a ++ b)%string) =
          String (lowerAscii x) (asciiLowerCase a ++ asciiLowerCase b)%string).
  by rewrite IH.
Qed.

(** [stripPrefixCI p s] succeeds exactly when [s] starts, letter case
    aside, with [p]; what it returns is the rest. *)
Lemma stripPrefixCI_spec p : forall s rest,
  stripPrefixCI p s = Some rest <->
  exists m, s = (m ++ rest)%string /\
            asciiLowerCase m = asciiLowerCase p /\
            String.length m = String.length p.
Proof.
  induction p as [|a p IH]; intros s rest.
  - destruct s as [|b s]; simpl.
    + split.
      * intros [= <-]. by exists EmptyString.
      * intros (m & Hs & Hm & Hl).
        destruct m; [|discriminate Hl]. rewrite Hs. reflexivity.
    + split.
      * intros [= <-]. by exists EmptyString.
      * intros (m & Hs & Hm & Hl).
        destruct m; [|discriminate Hl]. rewrite Hs. reflexivity.
  - destruct s as [|b s]; simpl.
    + split; [done|]. intros (m & Hs & Hm & Hl).
      destruct m; [done|discriminate Hs].
    + destruct (Ascii.eqb (lowerAscii a) (lowerAscii b)) eqn:E.
      * apply Ascii.eqb_eq in E. rewrite IH. split.
        -- intros (m & -> & Hm & Hl). exists (String b m).
           split; [done|]. simpl. by rewrite Hm, Hl, E.
        -- intros (m & Hs & Hm & Hl). destruct m as [|c m]; [done|].
           injection Hs as <- ->. simpl in Hm, Hl.
           injection Hm as _ Hm. injection Hl as Hl. by exists m.
      * split; [done|]. intros (m & Hs & Hm & Hl).
        destruct m as [|c m]; [done|]. injection Hs as <- ->.
        simpl in Hm. injection Hm as Hc _.
        apply Ascii.eqb_neq in E. congruence.
Qed.

Lemma stripPrefixCI_includes p s rest :
  stripPrefixCI p s = Some rest ->
  includes (asciiLowerCase s) (asciiLowerCase p) = true.
Proof.
  intros (m & -> & Hm & _)%stripPrefixCI_spec. apply includes_spec.
  exists EmptyString, (asciiLowerCase rest). by rewrite asciiLowerCase_app, Hm.
Qed.

Lemma stripPrefixCI_of_lower p : forall s r,
  asciiLowerCase s = (asciiLowerCase p ++ r)%string ->
  exists rest, stripPrefixCI p s = Some rest.
Proof.
  induction p as [|a p IH]; intros s r Hr.
  - exists s. by destruct s.
  - destruct s as [|c s]; [discriminate Hr|].
    change (String (lowerAscii c) (asciiLowerCase s) =
            String (lowerAscii a) (asciiLowerCase p ++ r)%string) in Hr.
    injection Hr as Hc Hr. simpl. rewrite Hc, Ascii.eqb_refl.
    by apply (IH s r).
Qed.

Lemma includes_cons c s p :
  includes s p = true -> includes (String c s) p = true.
Proof. intros H. cbn [includes]. rewrite H. apply orb_true_r. Qed.

(** X22.  The cleaning of a portfolio name takes out one piece of the name, an
    [IPO:] or an [Acquired By:] in any letter case, and leaves the rest in
    place; a name that holds neither is returned as it is. *)
Theorem replaceNoise_removes_one_marker s :
  (exists before marker after,
     s = (before ++ marker ++ after)%string /\
     replaceNoise s = (before ++ after)%string /\
     (asciiLowerCase marker = "ipo:"%string \/
      asciiLowerCase marker = "acquired by:"%string)) \/
  (replaceNoise s = s /\
   includes (asciiLowerCase s) "ipo:" = false /\
   includes (asciiLowerCase s) "acquired by:" = false).
Proof.
  induction s as [|c s IH].
  - right. by vm_compute.
  - unfold replaceNoise. fold replaceNoise.
    destruct (stripPrefixCI "IPO:" (String c s)) as [rest|] eqn:E1.
    { left. apply stripPrefixCI_spec in E1 as (m & Hs & Hm & _).
      exists EmptyString, m, rest. split_and!; [done|done|by left]. }
    destruct (stripPrefixCI "Acquired By:" (String c s)) as [rest|] eqn:E2.
    { left. apply stripPrefixCI_spec in E2 as (m & Hs & Hm & _).
      exists EmptyString, m, rest. split_and!; [done|done|by right]. }
    destruct IH as [(before & marker & after & -> & -> & Hm)|(-> & H1 & H2)].
    + left. by exists (String c before), marker, after.
    + right. split; [done|].
      assert (forall p,
                includes (asciiLowerCase s) (asciiLowerCase p) = false ->
                stripPrefixCI p (String c s) = None ->
                p <> EmptyString ->
                includes (asciiLowerCase (String c s)) (asciiLowerCase p)
                  = false)
        as Hno.
      { intros p Hs Hp Hne.
        change (asciiLowerCase (String c s))
          with (String (lowerAscii c) (asciiLowerCase s)).
        cbn [includes]. rewrite Hs, orb_false_r.
        destruct (startsWith _ _) eqn:Est; [|done].
        apply startsWith_spec in Est as [r Hr].
        destruct (stripPrefixCI_of_lower p (String c s) r Hr)
          as [rest Hrest].
        congruence. }
      split; [exact (Hno "IPO:"%string H1 E1 ltac:(done))|].
      exact (Hno "Acquired By:"%string H2 E2 ltac:(done)).
Qed.

(** X23.  Validation looks at the name without the white space around it: a
    record and the same record with its name trimmed are judged alike,
    whatever its other fields. *)
Theorem validateCompany_ignores_padding n w1 l1 s1 w2 l2 s2 :
  validateCompany (mkStartup (Some n) w1 l1 s1) =
  validateCompany (mkStartup (Some (trim n)) w2 l2 s2).
Proof.
  unfold validateCompany. simpl. rewrite trim_idem.
  destruct (stringLength (trim n) <? 2)%nat eqn:E;
    [by rewrite !orb_true_r|rewrite !orb_false_r].
  apply Nat.ltb_ge in E.
  destruct (trim n) as [|a t] eqn:Et; [simpl in E; lia|].
  destruct n; [vm_compute in Et; discriminate Et|done].
Qed.

End NameCleaning.
